(** * roachprod/vm: the provider abstraction and dispatch layer

    A shallow embedding of [pkg/cmd/roachprod/vm/vm.go] and the properties
    its specification states about it.

    Conventions of the embedding.
    - Go strings are [string]; the few library routines the package calls
      ([fmt.Sprintf], [regexp], [errors], [errgroup]) are modelled as far as
      the package uses them.
    - Go's [int] and [time.Duration] are 64-bit; they are carried as [Z],
      with the wrap-around written out where the code computes on them.
    - Go maps are [gmap]; a map that is shared through a reference lives in
      an explicit store.
    - Everything a provider does to the outside world is a transformation
      of an abstract world state [W]. *)

From Stdlib Require Import ZArith List Ascii String Lia Bool Permutation.
From stdpp Require Import gmap strings list fin_maps.

Local Open Scope string_scope.
Local Open Scope Z_scope.

(** ** errors (github.com/pkg/errors)

    An error is either created from a message or wraps a cause with a
    message.  A Go [error] that may be [nil] is an [option error]. *)

Inductive error : Type :=
| ErrorNew (msg : string)
| ErrorWrap (cause : error) (msg : string).

#[global] Instance error_eq_dec : EqDecision error.
Proof. solve_decision. Defined.

Module errors.

Definition New (msg : string) : error := ErrorNew msg.

(** [errors.Cause]: the innermost error of a chain of wraps. *)
Fixpoint Cause (e : error) : error :=
  match e with
  | ErrorNew _ => e
  | ErrorWrap c _ => Cause c
  end.

(** [err.Error()]: a wrap prints its message, a colon, and its cause. *)
Fixpoint Error (e : error) : string :=
  match e with
  | ErrorNew m => m
  | ErrorWrap c m => m ++ ": " ++ Error c
  end.

End errors.

(** ** fmt.Sprintf, for the verbs this package uses *)

Module fmt.

Inductive arg : Type :=
| ArgString (s : string)
| ArgInt (n : Z).

Definition is_digit (c : ascii) : bool :=
  ((48 <=? nat_of_ascii c) && (nat_of_ascii c <=? 57))%nat.

Definition digit_char (d : Z) : ascii := ascii_of_nat (48 + Z.to_nat d).

(** The digit loop of [fmtInteger]: the buffer is filled right to left,
    [for u >= 10 { next := u / 10; buf[i] = '0' + u - next*10; u = next }],
    then the leading digit.  A uint64 has at most 20 digits. *)
Fixpoint fmt_digits (fuel : nat) (u : Z) (buf : string) : string :=
  match fuel with
  | O => buf
  | S fuel' =>
      if 10 <=? u
      then let next := u / 10 in
           fmt_digits fuel' next (String (digit_char (u - next * 10)) buf)
      else String (digit_char u) buf
  end.

(** [for i > 0 && prec > len(buf)-i { buf[i] = '0' }] *)
Fixpoint zero_pad (n : nat) (buf : string) : string :=
  match n with
  | O => buf
  | S n' => zero_pad n' (String "0" buf)
  end.

(** [fmtInteger] for a signed value in base 10, without width: the value
    arrives as a uint64, [negative := int64(u) < 0], and [u = -u] wraps.
    A precision asks for at least that many digits; precision 0 prints
    nothing for the value 0. *)
Definition fmtInteger (n : Z) (prec : option nat) : string :=
  let u := n mod 2 ^ 64 in
  let negative := 2 ^ 63 <=? u in
  let u := if negative then (- u) mod 2 ^ 64 else u in
  match prec with
  | Some O => if u =? 0 then "" else
      let buf := fmt_digits 20 u "" in
      if negative then String "-" buf else buf
  | _ =>
      let p := match prec with Some p => p | None => O end in
      let buf := fmt_digits 20 u "" in
      let buf := zero_pad (p - String.length buf) buf in
      if negative then String "-" buf else buf
  end.

(** The state of the format scanner: in plain text, after a percent sign
    (reading flags), or inside a precision. *)
Inductive scan : Type :=
| Plain
| Flags (zero : bool)
| Prec (zero : bool) (p : nat).

(** What is printed for a verb that does not fit its operand; Go adds the
    type and the value of the operand, which no format of this package
    brings up. *)
Definition badVerb : string := "%!(BADVERB)".

Definition printArg (verb : ascii) (prec : option nat) (a : arg) : string :=
  match a with
  | ArgString s => if Ascii.eqb verb "s" then s else badVerb
  | ArgInt n => if Ascii.eqb verb "d" then fmtInteger n prec else badVerb
  end.

(** [doPrintf]: literal text is copied; a verb consumes one operand.  The
    zero flag has no effect without a width. *)
Fixpoint doPrintf (st : scan) (format : string) (args : list arg) : string :=
  match format with
  | EmptyString =>
      match st with Plain => "" | _ => "%!(NOVERB)" end
  | String c rest =>
      let verb (prec : option nat) :=
        match args with
        | a :: args' => printArg c prec a ++ doPrintf Plain rest args'
        | [] => "%!" ++ String c ("(MISSING)" ++ doPrintf Plain rest [])
        end in
      match st with
      | Plain =>
          if Ascii.eqb c "%" then doPrintf (Flags false) rest args
          else String c (doPrintf Plain rest args)
      | Flags z =>
          if Ascii.eqb c "0" then doPrintf (Flags true) rest args
          else if Ascii.eqb c "." then doPrintf (Prec z 0) rest args
          else verb None
      | Prec z p =>
          if is_digit c
          then doPrintf (Prec z (10 * p + (nat_of_ascii c - 48))%nat) rest args
          else verb (Some p)
      end
  end.

Definition Sprintf (format : string) (args : list arg) : string :=
  doPrintf Plain format args.

End fmt.

(** ** Name *)

(** [Name] generates the name for the i'th node in a cluster. *)
Definition Name (cluster : string) (idx : Z) : string :=
  fmt.Sprintf "%s-%0.4d" [fmt.ArgString cluster; fmt.ArgInt idx].

(** ** regexp

    The fragment of Go's regular expressions that [regionRE] is written in,
    matched by backtracking with Go's leftmost-first preference: greedy
    operators try to consume before they give up, and the earliest start
    position wins.

    Go decodes the text into UTF-8 code points.  Every character [regionRE]
    tells apart (the hyphen, the line feed, the lower-case letters) is
    ASCII, and an ASCII byte is always a complete code point, so matching
    byte by byte finds the same submatches. *)

Module regexp.

Inductive Regexp : Type :=
| AnyCharNotNL                                       (* .      *)
| Literal (c : ascii)                                (* c      *)
| CharClass (negated : bool) (ranges : list (ascii * ascii))  (* [a-z] [^-] *)
| Concat (r1 r2 : Regexp)                            (* r1r2   *)
| Star (r : Regexp)                                  (* r*     *)
| Quest (r : Regexp)                                 (* r?     *)
| Capture (index : nat) (r : Regexp)                 (* (r)    *)
| EndText.                                           (* $      *)

Definition newline : ascii := "010"%char.

Definition in_range (c : ascii) (r : ascii * ascii) : bool :=
  ((nat_of_ascii (fst r) <=? nat_of_ascii c)
   && (nat_of_ascii c <=? nat_of_ascii (snd r)))%nat.

Definition in_class (negated : bool) (ranges : list (ascii * ascii)) (c : ascii) : bool :=
  xorb negated (existsb (in_range c) ranges).

(** The text of each capture group, by index; [None] while unset. *)
Definition captures : Type := list (option (list ascii)).

Definition cont : Type := list ascii → captures → option captures.

(** The greedy loop of [r*]: one more round of [body] if it consumes
    something and the rest then matches, else stop here. *)
Fixpoint star_loop (body : list ascii → captures → cont → option captures)
    (fuel : nat) (s : list ascii) (cs : captures) (k : cont) : option captures :=
  match fuel with
  | O => k s cs
  | S fuel' =>
      match body s cs (λ s' cs',
              if (length s' <? length s)%nat
              then star_loop body fuel' s' cs' k else None) with
      | Some r => Some r
      | None => k s cs
      end
  end.

(** [backtrack r s cs k]: match [r] at the front of [s], then hand the
    rest of the text to [k]; alternatives are tried in preference
    order. *)
Fixpoint backtrack (r : Regexp) (s : list ascii) (cs : captures) (k : cont)
    {struct r} : option captures :=
  match r with
  | AnyCharNotNL =>
      match s with
      | c :: s' => if Ascii.eqb c newline then None else k s' cs
      | [] => None
      end
  | Literal a =>
      match s with
      | c :: s' => if Ascii.eqb c a then k s' cs else None
      | [] => None
      end
  | CharClass negated ranges =>
      match s with
      | c :: s' => if in_class negated ranges c then k s' cs else None
      | [] => None
      end
  | Concat r1 r2 =>
      backtrack r1 s cs (λ s1 cs1, backtrack r2 s1 cs1 k)
  | Star r1 =>
      star_loop (backtrack r1) (length s) s cs k
  | Quest r1 =>
      match backtrack r1 s cs k with
      | Some r => Some r
      | None => k s cs
      end
  | Capture i r1 =>
      backtrack r1 s cs (λ s' cs',
        k s' (<[i := Some (take (length s - length s') s)]> cs'))
  | EndText =>
      match s with
      | [] => k s cs
      | _ :: _ => None
      end
  end.

Fixpoint NumSubexp (r : Regexp) : nat :=
  match r with
  | Concat r1 r2 => NumSubexp r1 + NumSubexp r2
  | Star r1 | Quest r1 => NumSubexp r1
  | Capture _ r1 => S (NumSubexp r1)
  | _ => 0
  end.

(** One attempt at the start position [s]: group 0 is the whole match. *)
Definition match_at (re : Regexp) (s : list ascii) : option captures :=
  backtrack (Capture 0 re) s (replicate (S (NumSubexp re)) None)
    (λ _ cs, Some cs).

(** The unanchored search: the leftmost start position that matches. *)
Fixpoint search (re : Regexp) (s : list ascii) : option captures :=
  match match_at re s with
  | Some cs => Some cs
  | None =>
      match s with
      | [] => None
      | _ :: s' => search re s'
      end
  end.

(** [re.FindStringSubmatch(s)]: the text of the leftmost match and of its
    groups (the empty string for a group that took no part), or [nil]. *)
Definition FindStringSubmatch (re : Regexp) (s : string) : list string :=
  match search re (list_ascii_of_string s) with
  | Some cs => (λ c, string_of_list_ascii (default [] c)) <$> cs
  | None => []
  end.

End regexp.

(** [regexp.MustCompile(`(.*[^-])-?[a-z]$`)] *)
Definition regionRE : regexp.Regexp :=
  regexp.Concat
    (regexp.Capture 1
       (regexp.Concat (regexp.Star regexp.AnyCharNotNL)
                      (regexp.CharClass true [("-", "-")]%char)))
    (regexp.Concat (regexp.Quest (regexp.Literal "-"))
       (regexp.Concat (regexp.CharClass false [("a", "z")]%char)
                      regexp.EndText)).

(** ** log

    [log.Fatalf] prints and then ends the process with [os.Exit(1)]: a
    computation that may call it either returns or is cut short. *)

Inductive outcome (A : Type) : Type :=
| Return (a : A)
| Fatalf (format : string) (args : list fmt.arg).
Arguments Return {A} a.
Arguments Fatalf {A} format args.

(** ** VM *)

Module VM.

(** A VM is an abstract representation of a specific machine instance. *)
Record t : Type := mk {
  Name : string;
  CreatedAt : Z;
  Errors : list error;
  Lifetime : Z;
  DNS : string;
  Provider : string;
  ProviderID : string;
  PrivateIP : string;
  PublicIP : string;
  RemoteUser : string;
  VPC : string;
  MachineType : string;
  Zone : string
}.

Section Local.

(** [config.Local], the zone of a VM that stands for the local host.
    Package [config] is outside this package; its constant is taken as
    given. *)
Variable Local : string.

(** [IsLocal] returns true if the VM represents the local host. *)
Definition IsLocal (vm : t) : bool := bool_decide (Zone vm = Local).

(** [Locality] returns the cloud, region, and zone for the VM. *)
Definition Locality (vm : t) : outcome string :=
  let ret (region : string) :=
    Return (fmt.Sprintf "cloud=%s,region=%s,zone=%s"
              [fmt.ArgString (Provider vm); fmt.ArgString region;
               fmt.ArgString (Zone vm)]) in
  if IsLocal vm then ret (Zone vm)
  else
    let match_ := regexp.FindStringSubmatch regionRE (Zone vm) in
    if (length match_ =? 2)%nat then ret (nth 1 match_ "")
    else Fatalf "unable to parse region from zone %q" [fmt.ArgString (Zone vm)].

End Local.

End VM.

(** [List]: a collection of VMs. *)
Abbreviation List := (list VM.t).

Definition Len (vl : List) : Z := Z.of_nat (length vl).

(** [l[i]] for a Go [int] index: an index below zero or past the end is a
    run-time panic, here [None]. *)
Definition index {A : Type} (l : list A) (i : Z) : option A :=
  if 0 <=? i then l !! Z.to_nat i else None.

(** [vl[i], vl[j] = vl[j], vl[i]]: both elements are read, then both are
    written, in the slice itself. *)
Definition Swap (vl : List) (i j : Z) : option List :=
  match index vl i, index vl j with
  | Some a, Some b => Some (<[Z.to_nat j := a]> (<[Z.to_nat i := b]> vl))
  | _, _ => None
  end.

(** [vl[i].Name < vl[j].Name]: Go orders strings byte by byte. *)
Definition Less (vl : List) (i j : Z) : option bool :=
  match index vl i, index vl j with
  | Some a, Some b => Some (String.ltb (VM.Name a) (VM.Name b))
  | _, _ => None
  end.

(** [Names] extracts all [VM.Name] entries from the List:
    [ret := make([]string, len(vl))], then [ret[i] = vm.Name] for every
    position [i] of the range. *)
Definition Names (vl : List) : list string :=
  (foldl (λ st vm, (S st.1, <[st.1 := VM.Name vm]> st.2))
         (0%nat, replicate (length vl) "") vl).2.

(** [ProviderIDs] extracts all [ProviderID] values from the List. *)
Definition ProviderIDs (vl : List) : list string :=
  (foldl (λ st vm, (S st.1, <[st.1 := VM.ProviderID vm]> st.2))
         (0%nat, replicate (length vl) "") vl).2.

(** [CreateOpts] is the set of options when creating VMs. *)
Record SSDOpts : Type := {
  UseLocalSSD : bool;
  NoExt4Barrier : bool
}.

Record CreateOpts : Type := {
  Lifetime : Z;
  GeoDistributed : bool;
  VMProviders : list string;
  SSDOpts_ : SSDOpts
}.

(** ** Provider

    A Provider is a source of virtual machines running on some hosting
    platform.  Its methods act on the world [W]; a method that returns an
    [error] returns an [option error] next to the new world.  [Name]
    reports the same string at every call.  The [Flags] hook only feeds the
    command line and is left out. *)

Module Provider.

Record t (W : Type) : Type := mk {
  CleanSSH : W → option error * W;
  ConfigSSH : W → option error * W;
  Create : list string → CreateOpts → W → option error * W;
  Delete : List → W → option error * W;
  Extend : List → Z → W → option error * W;
  FindActiveAccount : W → (string * option error) * W;
  List : W → (List * option error) * W;
  Name : string
}.
Arguments mk {W}.
Arguments CleanSSH {W}.
Arguments ConfigSSH {W}.
Arguments Create {W}.
Arguments Delete {W}.
Arguments Extend {W}.
Arguments FindActiveAccount {W}.
Arguments List {W}.
Arguments Name {W}.

End Provider.

(** ** Ranging over a map

    [for k, v := range m] visits every entry once, in an order the language
    leaves open.  The order of one loop is a list of positions in the
    entries of the map; it is meant to be a permutation of all of them. *)

Definition pick {A : Type} (order : list nat) (l : list A) : list A :=
  omap (λ i, l !! i) order.

Definition range_map {V : Type} (order : list nat) (m : gmap string V) : list (string * V) :=
  pick order (map_to_list m).

(** ** errgroup (golang.org/x/sync/errgroup)

    A zero [Group] has no context to cancel: a function started with [Go]
    always runs to its end, the first non-nil error is kept ([errOnce]),
    and [Wait] blocks until all functions have returned and then returns
    the error kept.  The functions run as goroutines; a function is taken
    as one step on the state [S], and the schedule of a run is the order in
    which the functions take their step, as positions in launch order. *)

Module errgroup.

Section Group.

Context {S : Type}.

Definition task : Type := S → option error * S.

Record Group : Type := {
  launched : list task;
  err : option error
}.

Definition zero : Group := {| launched := []; err := None |}.

Definition Go (g : Group) (f : task) : Group :=
  {| launched := (launched g ++ [f])%list; err := err g |}.

(** One goroutine: [if err := f(); err != nil { g.errOnce.Do(...) }]. *)
Definition goroutine (f : task) (st : option error * S) : option error * S :=
  let (r, s') := f st.2 in
  (match st.1 with Some e => Some e | None => r end, s').

Definition Wait (sched : list nat) (g : Group) (s : S) : option error * S :=
  foldl (λ st f, goroutine f st) (err g, s) (pick sched (launched g)).

End Group.

Arguments Group S : clear implicits.

End errgroup.

(** ** The registry and the dispatch functions *)

Section Dispatch.

Context {W : Type}.

(** [Providers] contains all known Provider instances, as the init
    functions of the provider packages have left it. *)
Variable Providers : gmap string (Provider.t W).

(** [AllProviderNames] returns the names of all known vm Providers. *)
Definition AllProviderNames (order : list nat) : list string :=
  (range_map order Providers).*1.

Section Actions.

(** The state a callback acts on. *)
Context {S : Type}.

(** [ForProvider] resolves the Provider with the given name and executes
    the action. *)
Definition ForProvider (named : string)
    (action : Provider.t W → S → option error * S) (s : S) : option error * S :=
  match Providers !! named with
  | None =>
      (Some (errors.New (fmt.Sprintf "unknown vm provider: %s" [fmt.ArgString named])), s)
  | Some p =>
      match action p s with
      | (Some err, s') =>
          (Some (ErrorWrap err (fmt.Sprintf "in provider: %s" [fmt.ArgString named])), s')
      | (None, s') => (None, s')
      end
  end.

(** [ProvidersSequential] sequentially executes actions for each named
    Provider. *)
Fixpoint ProvidersSequential (named : list string)
    (action : Provider.t W → S → option error * S) (s : S) : option error * S :=
  match named with
  | [] => (None, s)
  | name :: named' =>
      match ForProvider name action s with
      | (Some err, s') => (Some err, s')
      | (None, s') => ProvidersSequential named' action s'
      end
  end.

(** [ProvidersParallel] concurrently executes actions for each named
    Provider. *)
Definition ProvidersParallel (sched : list nat) (named : list string)
    (action : Provider.t W → S → option error * S) (s : S) : option error * S :=
  let g := foldl (λ g n, errgroup.Go g (ForProvider n action)) errgroup.zero named in
  errgroup.Wait sched g s.

(** The first loop of [FanOut]:
    [m[vm.Provider] = append(m[vm.Provider], vm)]. *)
Definition collate (vl : List) : gmap string List :=
  foldl (λ m vm, <[VM.Provider vm := (default [] (m !! VM.Provider vm) ++ [vm])%list]> m)
        ∅ vl.

(** The function [FanOut] starts for one entry of the map. *)
Definition fanOutTask (action : Provider.t W → List → S → option error * S)
    (n : string) (v : List) (s : S) : option error * S :=
  match Providers !! n with
  | None =>
      (Some (errors.New (fmt.Sprintf "unknown provider name: %s" [fmt.ArgString n])), s)
  | Some p => action p v s
  end.

(** [FanOut] collates a collection of VMs by their provider and invokes
    the callbacks in parallel. *)
Definition FanOut (order sched : list nat) (vl : List)
    (action : Provider.t W → List → S → option error * S) (s : S) : option error * S :=
  let m := collate vl in
  let g := foldl (λ g e, errgroup.Go g (fanOutTask action e.1 e.2))
                 errgroup.zero (range_map order m) in
  errgroup.Wait sched g s.

End Actions.

(** *** The cache of active accounts

    A Go map is a reference.  The memory of the package holds the maps
    made so far, by address, the variable [cachedActiveAccounts] (nil, or
    the address of a map) and the world of the providers. *)

Record memory : Type := {
  heap : list (gmap string string);
  cachedActiveAccounts : option nat;
  world : W
}.

(** [make(map[string]string)] and [map[string]string{}], with contents *)
Definition make_map (m : gmap string string) (st : memory) : nat * memory :=
  (length (heap st),
   {| heap := (heap st ++ [m])%list;
      cachedActiveAccounts := cachedActiveAccounts st;
      world := world st |}).

Definition map_at (a : nat) (st : memory) : gmap string string :=
  default ∅ (heap st !! a).

(** [m[k] = v] for the map at address [a] *)
Definition map_store (a : nat) (k v : string) (st : memory) : memory :=
  {| heap := <[a := <[k := v]> (map_at a st)]> (heap st);
     cachedActiveAccounts := cachedActiveAccounts st;
     world := world st |}.

(** The callback of [FindActiveAccounts]: ask one Provider for its active
    account name and keep a non-empty answer in [source]. *)
Definition askAccount (source : nat) (p : Provider.t W) (st : memory)
    : option error * memory :=
  let '((account, err), w) := Provider.FindActiveAccount p (world st) in
  let st := {| heap := heap st;
               cachedActiveAccounts := cachedActiveAccounts st;
               world := w |} in
  match err with
  | Some e => (Some e, st)
  | None =>
      if (0 <? String.length account)%nat
      then (None, map_store source (Provider.Name p) account st)
      else (None, st)
  end.

(** The copy loop: [for k, v := range source { ret[k] = v }].  The keys
    of a map are distinct, so the order of the visit is immaterial. *)
Definition copy_map (source : gmap string string) : gmap string string :=
  map_fold (λ k v ret, <[k := v]> ret) ∅ source.

(** The end of [FindActiveAccounts]: [ret := make(...)], the copy loop,
    [return ret, nil]. *)
Definition returnCopy (source : nat) (st : memory)
    : (option nat * option error) * memory :=
  let (ret, st) := make_map (copy_map (map_at source st)) st in
  ((Some ret, None), st).

(** [FindActiveAccounts] queries the active providers for the name of the
    user account.  It returns a map (nil, or an address) and an error. *)
Definition FindActiveAccounts (order : list nat) (st : memory)
    : (option nat * option error) * memory :=
  match cachedActiveAccounts st with
  | Some source => returnCopy source st
  | None =>
      let (source, st) := make_map ∅ st in
      match ProvidersSequential (AllProviderNames order) (askAccount source) st with
      | (Some err, st) => ((None, Some err), st)
      | (None, st) =>
          returnCopy source
            {| heap := heap st;
               cachedActiveAccounts := Some source;
               world := world st |}
      end
  end.

End Dispatch.

(** * Properties *)

(** ** Strings *)

#[local] Arguments String.append !_ _ / : simpl nomatch.
#[local] Arguments fmt.digit_char : simpl never.
#[local] Arguments nat_of_ascii : simpl never.

Lemma append_nil_r (s : string) : s ++ "" = s.
Proof. induction s as [|c s IH]; simpl; [reflexivity | by rewrite IH]. Qed.

Lemma append_assoc (a b c : string) : (a ++ b) ++ c = a ++ (b ++ c).
Proof. induction a as [|x a IH]; simpl; [reflexivity | by rewrite IH]. Qed.

Lemma length_append (a b : string) :
  String.length (a ++ b) = (String.length a + String.length b)%nat.
Proof. induction a as [|x a IH]; simpl; [reflexivity | by rewrite IH]. Qed.

Lemma list_ascii_of_string_app (a b : string) :
  list_ascii_of_string (a ++ b)
  = (list_ascii_of_string a ++ list_ascii_of_string b)%list.
Proof. induction a as [|x a IH]; simpl; [reflexivity | by rewrite IH]. Qed.

(** ** Name: the decimal index *)

(** The number a string of decimal digits denotes, most significant digit
    first. *)
Fixpoint decimal_value (acc : Z) (ds : string) : Z :=
  match ds with
  | EmptyString => acc
  | String c ds' => decimal_value (10 * acc + (Z.of_nat (nat_of_ascii c) - 48)) ds'
  end.

Fixpoint all_digits (ds : string) : bool :=
  match ds with
  | EmptyString => true
  | String c ds' => fmt.is_digit c && all_digits ds'
  end.

Definition leading_zero (ds : string) : bool :=
  match ds with
  | String c _ => Ascii.eqb c "0"
  | EmptyString => false
  end.

Lemma decimal_value_app (acc : Z) (a b : string) :
  decimal_value acc (a ++ b) = decimal_value (decimal_value acc a) b.
Proof. revert acc. induction a as [|x a IH]; intros acc; simpl; [reflexivity | apply IH]. Qed.

Lemma all_digits_app (a b : string) :
  all_digits (a ++ b) = all_digits a && all_digits b.
Proof. induction a as [|x a IH]; simpl; [reflexivity | by rewrite IH, andb_assoc]. Qed.

Lemma digit_char_spec (d : Z) :
  0 <= d < 10 →
  fmt.is_digit (fmt.digit_char d) = true
  ∧ Z.of_nat (nat_of_ascii (fmt.digit_char d)) - 48 = d
  ∧ (Ascii.eqb (fmt.digit_char d) "0" = true → d = 0).
Proof.
  intros Hd.
  assert (Hcases : d = 0 ∨ d = 1 ∨ d = 2 ∨ d = 3 ∨ d = 4 ∨ d = 5 ∨ d = 6
                   ∨ d = 7 ∨ d = 8 ∨ d = 9) by lia.
  repeat destruct Hcases as [-> | Hcases]; try subst d;
    (split; [reflexivity | split; [reflexivity | first [reflexivity | discriminate]]]).
Qed.

(** The digit loop writes the digits of [u] in front of the buffer, without
    a leading zero unless [u] is zero. *)
Lemma fmt_digits_spec (fuel : nat) :
  ∀ (u : Z) (buf : string),
    0 <= u < 10 ^ Z.of_nat (S fuel) →
    ∃ ds, fmt.fmt_digits (S fuel) u buf = ds ++ buf
          ∧ all_digits ds = true
          ∧ decimal_value 0 ds = u
          ∧ (1 <= String.length ds)%nat
          ∧ (leading_zero ds = true → u = 0 ∧ String.length ds = 1%nat).
Proof.
  assert (Hlast : ∀ (u : Z) (buf : string), 0 <= u < 10 →
            ∃ ds, String (fmt.digit_char u) buf = ds ++ buf
                  ∧ all_digits ds = true
                  ∧ decimal_value 0 ds = u
                  ∧ (1 <= String.length ds)%nat
                  ∧ (leading_zero ds = true → u = 0 ∧ String.length ds = 1%nat)).
  { intros u buf Hu.
    destruct (digit_char_spec u Hu) as (Hd1 & Hd2 & Hd3).
    exists (String (fmt.digit_char u) "").
    split; [reflexivity |].
    split; [cbn [all_digits]; by rewrite Hd1 |].
    split; [cbn [decimal_value]; lia |].
    split; [cbn [String.length]; lia |].
    cbn [leading_zero]. intros Hz. split; [by apply Hd3 | reflexivity]. }
  induction fuel as [|fuel IH]; intros u buf Hu.
  - change (fmt.fmt_digits 1 u buf)
      with (if 10 <=? u
            then String (fmt.digit_char (u - u / 10 * 10)) buf
            else String (fmt.digit_char u) buf).
    destruct (10 <=? u) eqn:Hten; [apply Z.leb_le in Hten; simpl in Hu; lia |].
    apply Z.leb_gt in Hten. apply Hlast. lia.
  - change (fmt.fmt_digits (S (S fuel)) u buf)
      with (if 10 <=? u
            then fmt.fmt_digits (S fuel) (u / 10)
                   (String (fmt.digit_char (u - u / 10 * 10)) buf)
            else String (fmt.digit_char u) buf).
    destruct (10 <=? u) eqn:Hten.
    + apply Z.leb_le in Hten.
      assert (Hq : 0 <= u / 10 < 10 ^ Z.of_nat (S fuel)).
      { split; [apply Z.div_pos; lia |].
        apply Z.div_lt_upper_bound; [lia |].
        rewrite (Nat2Z.inj_succ (S fuel)), Z.pow_succ_r in Hu; lia. }
      destruct (IH (u / 10) (String (fmt.digit_char (u - u / 10 * 10)) buf) Hq)
        as (ds & Heq & Hall & Hval & Hlen & Hlead).
      assert (Hr : 0 <= u - u / 10 * 10 < 10).
      { pose proof (Z.mod_pos_bound u 10 ltac:(lia)).
        rewrite Z.mod_eq in H by lia. lia. }
      destruct (digit_char_spec _ Hr) as (Hd1 & Hd2 & _).
      exists (ds ++ String (fmt.digit_char (u - u / 10 * 10)) "").
      rewrite Heq, append_assoc.
      split; [reflexivity |].
      split; [rewrite all_digits_app, Hall; cbn [all_digits]; by rewrite Hd1 |].
      split; [rewrite decimal_value_app, Hval; cbn [decimal_value]; lia |].
      split; [rewrite length_append; cbn [String.length]; lia |].
      intros Hz. exfalso.
      destruct ds as [|c ds]; [cbn [String.length] in Hlen; lia |].
      destruct (Hlead Hz) as [Hzero _]. lia.
    + apply Z.leb_gt in Hten. apply Hlast. lia.
Qed.

Lemma zero_pad_spec (n : nat) :
  ∀ buf : string,
    ∃ zs, fmt.zero_pad n buf = zs ++ buf
          ∧ String.length zs = n
          ∧ all_digits zs = true
          ∧ ∀ acc ds, decimal_value acc (zs ++ ds) = decimal_value (10 ^ Z.of_nat n * acc) ds.
Proof.
  induction n as [|n IH]; intros buf.
  - exists "". repeat split; try reflexivity.
    intros acc ds. cbn [String.append]. f_equal. change (10 ^ Z.of_nat 0) with 1. lia.
  - cbn [fmt.zero_pad].
    destruct (IH (String "0" buf)) as (zs & Heq & Hlen & Hall & Hval).
    exists (zs ++ "0"). rewrite Heq, append_assoc.
    split; [reflexivity |].
    split; [rewrite length_append; cbn [String.length]; lia |].
    split; [rewrite all_digits_app, Hall; reflexivity |].
    intros acc ds. rewrite append_assoc, Hval.
    cbn [String.append decimal_value].
    change (nat_of_ascii "0") with 48%nat.
    f_equal. change (Z.of_nat 48) with 48.
    rewrite (Nat2Z.inj_succ n), Z.pow_succ_r by lia. lia.
Qed.

(** The magnitude [fmtInteger] prints for an int64. *)
Lemma int64_magnitude (n : Z) :
  - 2 ^ 63 <= n < 2 ^ 63 →
  (2 ^ 63 <=? n mod 2 ^ 64) = (n <? 0)
  ∧ (if n <? 0 then (- (n mod 2 ^ 64)) mod 2 ^ 64 else n mod 2 ^ 64) = Z.abs n.
Proof.
  intros Hn. destruct (n <? 0) eqn:Hneg.
  - apply Z.ltb_lt in Hneg.
    assert (Hm : n mod 2 ^ 64 = n + 2 ^ 64).
    { symmetry. apply (Z.mod_unique n (2 ^ 64) (-1)); lia. }
    rewrite Hm. split; [apply Z.leb_le; lia |].
    symmetry. apply (Z.mod_unique _ (2 ^ 64) (-1)); lia.
  - apply Z.ltb_ge in Hneg.
    rewrite Z.mod_small by lia. split; [apply Z.leb_gt; lia | lia].
Qed.

Lemma Name_unfold (cluster : string) (idx : Z) :
  Name cluster idx = cluster ++ "-" ++ fmt.fmtInteger idx (Some 4%nat).
Proof.
  unfold Name, fmt.Sprintf. cbn [fmt.doPrintf Ascii.eqb Bool.eqb fmt.printArg].
  cbn. by rewrite append_nil_r.
Qed.

(** C10. For every cluster name and every index that fits Go's 64-bit
    [int], [Name cluster idx] is the cluster name, a hyphen, and the decimal
    representation of the index padded on the left with zeros to at least
    four digits: after the sign of a negative index comes a string of
    decimal digits that denotes the magnitude of the index, is at least four
    long, and starts with a zero only when it is exactly four long. *)
Theorem Name_decimal_padded (cluster : string) (idx : Z) :
  - 2 ^ 63 <= idx < 2 ^ 63 →
  ∃ ds : string,
    Name cluster idx = cluster ++ "-" ++ (if idx <? 0 then "-" else "") ++ ds
    ∧ all_digits ds = true
    ∧ decimal_value 0 ds = Z.abs idx
    ∧ (4 <= String.length ds)%nat
    ∧ (leading_zero ds = true → String.length ds = 4%nat).
Proof.
  intros Hidx. rewrite Name_unfold. unfold fmt.fmtInteger.
  destruct (int64_magnitude idx Hidx) as [Hneg Hmag].
  rewrite Hneg.
  assert (Hu : (if idx <? 0 then (- (idx mod 2 ^ 64)) mod 2 ^ 64 else idx mod 2 ^ 64)
               = Z.abs idx) by exact Hmag.
  rewrite Hu. clear Hu Hmag Hneg.
  destruct (fmt_digits_spec 19 (Z.abs idx) "") as (ds & Heq & Hall & Hval & Hlen & Hlead).
  { split; [lia |]. change (10 ^ Z.of_nat 20) with 100000000000000000000. lia. }
  rewrite append_nil_r in Heq. rewrite Heq.
  destruct (zero_pad_spec (4 - String.length ds) ds) as (zs & Hz & Hzlen & Hzall & Hzval).
  rewrite Hz. exists (zs ++ ds).
  split; [by destruct (idx <? 0) |].
  split; [by rewrite all_digits_app, Hzall, Hall |].
  split; [rewrite Hzval; simpl; rewrite Z.mul_0_r; exact Hval |].
  split; [rewrite length_append; lia |].
  intros Hzero. rewrite length_append.
  destruct zs as [|z zs]; simpl in *.
  - destruct (Hlead Hzero) as [_ Hone]. lia.
  - lia.
Qed.

(** The seventh node of cluster foo. *)
Lemma Name_decimal_padded_witness :
  - 2 ^ 63 <= 7 < 2 ^ 63
  ∧ Name "foo" 7 = "foo-0007"
  ∧ ∃ ds : string,
      Name "foo" 7 = "foo" ++ "-" ++ (if 7 <? 0 then "-" else "") ++ ds
      ∧ all_digits ds = true
      ∧ decimal_value 0 ds = Z.abs 7
      ∧ (4 <= String.length ds)%nat
      ∧ (leading_zero ds = true → String.length ds = 4%nat).
Proof.
  split; [lia |]. split; [reflexivity |].
  apply (Name_decimal_padded "foo" 7). lia.
Defined.

(** ** regionRE: what the expression accepts *)

Section RegionRE.

#[local] Arguments regexp.in_class : simpl never.
#[local] Arguments Ascii.eqb : simpl never.

Definition lower (c : ascii) : bool := regexp.in_class false [("a", "z")]%char c.

Definition not_hyphen (c : ascii) : bool := regexp.in_class true [("-", "-")]%char c.

(** The end of a zone after which [regionRE] can stop: a character other
    than a hyphen, possibly a hyphen, and a lower-case letter. *)
Definition region_tail (s : list ascii) : bool :=
  match s with
  | [x; l] => not_hyphen x && lower l
  | [x; y; l] => not_hyphen x && Ascii.eqb y "-" && lower l
  | _ => false
  end.

(** The group of a match that starts at the front of [s]: everything up
    to the start of the tail, if no line feed comes before it. *)
Fixpoint region_at (s : list ascii) : option (list ascii) :=
  match s with
  | [] => None
  | c :: s' =>
      if region_tail s then Some [c]
      else if Ascii.eqb c regexp.newline then None
      else cons c <$> region_at s'
  end.

(** The greedy loop of [.*], as a recursion on the text. *)
Fixpoint star_any (s : list ascii) (cs : regexp.captures) (k : regexp.cont)
    : option regexp.captures :=
  match s with
  | [] => k [] cs
  | c :: s' =>
      if Ascii.eqb c regexp.newline then k s cs
      else match star_any s' cs k with
           | Some r => Some r
           | None => k s cs
           end
  end.

Lemma not_hyphen_spec (c : ascii) : not_hyphen c = negb (Ascii.eqb c "-").
Proof. destruct c as [[] [] [] [] [] [] [] []]; reflexivity. Qed.

Lemma lower_not_hyphen (c : ascii) : lower c = true → Ascii.eqb c "-" = false.
Proof. destruct c as [[] [] [] [] [] [] [] []]; (reflexivity || discriminate). Qed.

Lemma star_loop_any (fuel : nat) :
  ∀ (s : list ascii) (cs : regexp.captures) (k : regexp.cont),
    (length s <= fuel)%nat →
    regexp.star_loop (regexp.backtrack regexp.AnyCharNotNL) fuel s cs k
    = star_any s cs k.
Proof.
  induction fuel as [|fuel IH]; intros s cs k Hlen.
  - destruct s; [reflexivity | simpl in Hlen; lia].
  - destruct s as [|c s]; [reflexivity |].
    simpl. destruct (Ascii.eqb c regexp.newline); [reflexivity |].
    assert (Hlt : (length s <? S (length s))%nat = true) by (apply Nat.ltb_lt; lia).
    rewrite Hlt. rewrite IH by (simpl in Hlen; lia). reflexivity.
Qed.

(** What follows [.*] in a match attempt at [s0]: the class, the end of
    group 1, the tail of the expression, the end of the match. *)
Definition region_k (s0 : list ascii) : regexp.cont :=
  λ s1 cs1,
    regexp.backtrack (regexp.CharClass true [("-", "-")]%char) s1 cs1
      (λ s' cs',
         regexp.backtrack
           (regexp.Concat (regexp.Quest (regexp.Literal "-"))
              (regexp.Concat (regexp.CharClass false [("a", "z")]%char)
                             regexp.EndText))
           s' (<[1%nat := Some (take (length s0 - length s') s0)]> cs')
           (λ s'' cs'',
              Some (<[0%nat := Some (take (length s0 - length s'') s0)]> cs''))).

Lemma match_at_regionRE (s : list ascii) :
  regexp.match_at regionRE s = star_any s [None; None] (region_k s).
Proof.
  unfold regexp.match_at, regionRE.
  cbn [regexp.backtrack regexp.NumSubexp Nat.add replicate].
  rewrite star_loop_any by lia. reflexivity.
Qed.

Lemma region_k_spec (s0 s1 : list ascii) :
  region_k s0 s1 [None; None]
  = if region_tail s1
    then Some [Some s0; Some (take (length s0 - (length s1 - 1)) s0)]
    else None.
Proof.
  assert (Hall : take (length s0 - 0) s0 = s0).
  { rewrite Nat.sub_0_r. apply firstn_all. }
  unfold region_k.
  destruct s1 as [|x [|y [|z [|w s1]]]];
    cbn [regexp.backtrack region_tail length Nat.sub];
    try fold (not_hyphen x); try fold (lower y); try fold (lower z); try reflexivity.
  all: rewrite ?Hall; destruct (not_hyphen x); try destruct (Ascii.eqb y "-");
    try destruct (lower z); try destruct (lower y); reflexivity.
Qed.

(** A tail has no shorter tail inside it. *)
Lemma region_tail_unique (c : ascii) (s : list ascii) :
  region_tail (c :: s) = true → region_at s = None.
Proof.
  destruct s as [|y [|l [|w s]]]; cbn [region_tail region_at]; try discriminate.
  - intros _. destruct (Ascii.eqb y regexp.newline); reflexivity.
  - rewrite (not_hyphen_spec y).
    destruct (Ascii.eqb y "-") eqn:Hy; [| rewrite andb_false_r; discriminate].
    intros _. apply Ascii.eqb_eq in Hy. subst y. cbn [negb andb].
    change (Ascii.eqb "-" regexp.newline) with false. cbn [fmap option_fmap option_map].
    destruct (Ascii.eqb l regexp.newline); reflexivity.
Qed.

Lemma star_any_region (s : list ascii) :
  ∀ p : list ascii,
    star_any s [None; None] (region_k (p ++ s))
    = (λ g, [Some (p ++ s); Some (p ++ g)])%list <$> region_at s.
Proof.
  induction s as [|c s IH]; intros p.
  - cbn [star_any region_at]. rewrite region_k_spec. reflexivity.
  - assert (Htake : take (length (p ++ c :: s) - (length (c :: s) - 1)) (p ++ c :: s)
                    = (p ++ [c])%list).
    { rewrite length_app. cbn [length].
      replace (length p + S (length s) - (S (length s) - 1))%nat
        with (length (p ++ [c])%list) by (rewrite length_app; simpl; lia).
      replace (p ++ c :: s)%list with ((p ++ [c]) ++ s)%list
        by (by rewrite <- app_assoc).
      apply take_app_length. }
    cbn [star_any region_at]. rewrite region_k_spec, Htake.
    destruct (region_tail (c :: s)) eqn:Htail.
    + pose proof (region_tail_unique c s Htail) as Hnone.
      specialize (IH (p ++ [c])%list). rewrite <- app_assoc in IH. cbn [app] in IH.
      rewrite IH, Hnone.
      destruct (Ascii.eqb c regexp.newline); reflexivity.
    + destruct (Ascii.eqb c regexp.newline); [reflexivity |].
      specialize (IH (p ++ [c])%list). rewrite <- app_assoc in IH. cbn [app] in IH.
      rewrite IH. destruct (region_at s) as [g|]; [|reflexivity].
      cbn [fmap option_fmap option_map]. by rewrite <- app_assoc.
Qed.

Lemma star_any_region_start (s : list ascii) :
  star_any s [None; None] (region_k s)
  = (λ g, [Some s; Some g]) <$> region_at s.
Proof. exact (star_any_region s []). Qed.

Lemma search_regionRE (s : list ascii) :
  regexp.search regionRE s
  = match region_at s with
    | Some g => Some [Some s; Some g]
    | None => match s with
              | [] => None
              | _ :: s' => regexp.search regionRE s'
              end
    end.
Proof.
  destruct s as [|c s]; cbn [regexp.search];
    rewrite match_at_regionRE, star_any_region_start.
  - reflexivity.
  - destruct (region_at (c :: s)); reflexivity.
Qed.

(** A match has the whole match and the group. *)
Lemma search_regionRE_shape (s : list ascii) (cs : regexp.captures) :
  regexp.search regionRE s = Some cs → ∃ w g, cs = [Some w; Some g].
Proof.
  induction s as [|c s IH]; rewrite search_regionRE.
  - cbn [region_at]. discriminate.
  - destruct (region_at (c :: s)) as [g|]; [| exact IH].
    intros [= <-]. eauto.
Qed.

Lemma region_at_tail (s : list ascii) :
  region_at s = None → region_tail s = false.
Proof.
  destruct s as [|c s]; [reflexivity |]. cbn [region_at].
  destruct (region_tail (c :: s)); [discriminate | reflexivity].
Qed.

(** No match anywhere: no suffix of the text is a tail. *)
Lemma search_regionRE_none (s : list ascii) :
  regexp.search regionRE s = None
  ↔ ∀ u t : list ascii, s = (u ++ t)%list → region_tail t = false.
Proof.
  induction s as [|c s IH]; rewrite search_regionRE.
  - cbn [region_at]. split; [| reflexivity].
    intros _ u t Hs. symmetry in Hs. apply app_eq_nil in Hs as [_ ->]. reflexivity.
  - split.
    + destruct (region_at (c :: s)) eqn:Hat; [discriminate |].
      intros Hs u t Heq. destruct u as [|c' u].
      * cbn [app] in Heq. subst t. by apply region_at_tail.
      * injection Heq as _ Heq. by apply (proj1 IH Hs u t).
    + intros Hall.
      assert (Hrec : regexp.search regionRE s = None).
      { apply IH. intros u t Heq. apply (Hall (c :: u) t). by rewrite Heq. }
      assert (Hat : ∀ s' : list ascii,
                 (∀ u t, s' = (u ++ t)%list → region_tail t = false) →
                 region_at s' = None).
      { clear. induction s' as [|c s' IH']; intros Hall; [reflexivity |].
        cbn [region_at]. rewrite (Hall [] (c :: s') eq_refl).
        destruct (Ascii.eqb c regexp.newline); [reflexivity |].
        rewrite IH'; [reflexivity |].
        intros u t Heq. apply (Hall (c :: u) t). by rewrite Heq. }
      rewrite (Hat (c :: s) Hall). exact Hrec.
Qed.

(** A text without line feed that ends in a tail matches from its start,
    and the group is all but the end of the tail. *)
Lemma region_at_prefix (u : list ascii) (x : ascii) (t : list ascii) :
  Forall (λ c, c ≠ regexp.newline) u →
  region_tail (x :: t) = true →
  region_at (u ++ x :: t) = Some (u ++ [x])%list.
Proof.
  intros Hnl Htail. induction Hnl as [|c u Hc Hnl IH].
  - cbn [app region_at]. by rewrite Htail.
  - cbn [app region_at].
    assert (Hlong : region_tail (c :: (u ++ x :: t)%list) = false).
    { destruct (region_tail (c :: (u ++ x :: t)%list)) eqn:Hlong; [| reflexivity].
      apply region_tail_unique in Hlong. rewrite IH in Hlong. discriminate. }
    rewrite Hlong. apply Ascii.eqb_neq in Hc. rewrite Hc, IH. reflexivity.
Qed.

Lemma region_tail_spec (t : list ascii) :
  region_tail t = true
  ↔ ∃ x l : ascii, (t = [x; l] ∨ t = [x; "-"%char; l]) ∧ x ≠ "-"%char ∧ lower l = true.
Proof.
  split.
  - destruct t as [|x [|y [|l [|w t]]]]; cbn [region_tail]; try discriminate.
    + rewrite not_hyphen_spec. intros [Hx Hl]%andb_true_iff.
      apply negb_true_iff, Ascii.eqb_neq in Hx. exists x, y. eauto.
    + rewrite not_hyphen_spec. intros [[Hx Hy]%andb_true_iff Hl]%andb_true_iff.
      apply negb_true_iff, Ascii.eqb_neq in Hx. apply Ascii.eqb_eq in Hy. subst y.
      exists x, l. eauto.
  - intros (x & l & [-> | ->] & Hx & Hl); cbn [region_tail];
      rewrite not_hyphen_spec; apply Ascii.eqb_neq in Hx; rewrite Hx, Hl; reflexivity.
Qed.

End RegionRE.

(** ** Locality *)

Lemma string_of_list_ascii_app (a b : list ascii) :
  string_of_list_ascii (a ++ b)%list = string_of_list_ascii a ++ string_of_list_ascii b.
Proof. induction a as [|x a IH]; simpl; [reflexivity | by rewrite IH]. Qed.

Fixpoint last_char (s : string) : option ascii :=
  match s with
  | EmptyString => None
  | String c EmptyString => Some c
  | String _ s' => last_char s'
  end.

Fixpoint has_newline (s : string) : bool :=
  match s with
  | EmptyString => false
  | String c s' => Ascii.eqb c regexp.newline || has_newline s'
  end.

(** A zone the expression accepts, in plain terms: it ends in a character
    other than a hyphen, an optional hyphen, and a lower-case letter. *)
Definition zone_parses (z : string) : Prop :=
  ∃ (u : string) (x l : ascii),
    (z = u ++ String x (String l "") ∨ z = u ++ String x (String "-" (String l "")))
    ∧ x ≠ "-"%char ∧ lower l = true.

Lemma last_char_split (p : string) (x : ascii) :
  last_char p = Some x →
  has_newline p = false →
  ∃ u : list ascii,
    list_ascii_of_string p = (u ++ [x])%list ∧ Forall (λ c, c ≠ regexp.newline) u.
Proof.
  induction p as [|c p IH]; [discriminate |].
  destruct p as [|c' p].
  - intros [= ->] _. exists []. split; [reflexivity | constructor].
  - intros Hlast Hnl.
    change (has_newline (String c (String c' p)))
      with (Ascii.eqb c regexp.newline || has_newline (String c' p)) in Hnl.
    apply orb_false_iff in Hnl as [Hc Hnl].
    destruct (IH Hlast Hnl) as (u & Hu & Hall).
    exists (c :: u). split.
    + change (list_ascii_of_string (String c (String c' p)))
        with (c :: list_ascii_of_string (String c' p)).
      by rewrite Hu.
    + constructor; [by apply Ascii.eqb_neq | exact Hall].
Qed.

Lemma region_at_some (s : list ascii) :
  ∀ g, region_at s = Some g →
       ∃ u t : list ascii, s = (u ++ t)%list ∧ region_tail t = true.
Proof.
  induction s as [|c s IH]; intros g; [discriminate |].
  cbn [region_at]. destruct (region_tail (c :: s)) eqn:Htail.
  - intros _. exists [], (c :: s). auto.
  - destruct (Ascii.eqb c regexp.newline); [discriminate |].
    destruct (region_at s) as [g'|]; [| discriminate].
    intros _. destruct (IH g' eq_refl) as (u & t & -> & Ht).
    exists (c :: u), t. auto.
Qed.

Lemma search_regionRE_some (s : list ascii) :
  ∀ cs, regexp.search regionRE s = Some cs →
        ∃ u t : list ascii, s = (u ++ t)%list ∧ region_tail t = true.
Proof.
  induction s as [|c s IH]; intros cs; rewrite search_regionRE.
  - cbn [region_at]. discriminate.
  - destruct (region_at (c :: s)) as [g|] eqn:Hat.
    + intros _. by apply (region_at_some _ g).
    + intros Hs. destruct (IH cs Hs) as (u & t & -> & Ht).
      exists (c :: u), t. auto.
Qed.

Lemma zone_parses_search (z : string) :
  zone_parses z ↔ regexp.search regionRE (list_ascii_of_string z) ≠ None.
Proof.
  split.
  - intros (u & x & l & Hz & Hx & Hl) Hnone.
    rewrite search_regionRE_none in Hnone.
    destruct Hz as [-> | ->]; rewrite list_ascii_of_string_app in Hnone;
      specialize (Hnone _ _ eq_refl);
      match type of Hnone with
      | region_tail ?t = false =>
          assert (Ht : region_tail t = true)
            by (apply region_tail_spec; exists x, l; cbn; eauto)
      end; congruence.
  - intros Hsome.
    destruct (regexp.search regionRE (list_ascii_of_string z)) as [cs|] eqn:Hs;
      [| congruence].
    destruct (search_regionRE_some _ _ Hs) as (u & t & Hz & Ht).
    apply region_tail_spec in Ht as (x & l & Ht & Hx & Hl).
    exists (string_of_list_ascii u), x, l.
    rewrite <- (string_of_list_ascii_of_string z), Hz, string_of_list_ascii_app.
    destruct Ht as [-> | ->]; eauto.
Qed.

Lemma Sprintf_locality (p r z : string) :
  fmt.Sprintf "cloud=%s,region=%s,zone=%s"
    [fmt.ArgString p; fmt.ArgString r; fmt.ArgString z]
  = "cloud=" ++ p ++ ",region=" ++ r ++ ",zone=" ++ z.
Proof.
  unfold fmt.Sprintf. cbn. rewrite (append_nil_r z). reflexivity.
Qed.

(** A match of [regionRE] makes [Locality] return, with the group as the
    region. *)
Lemma Locality_of_match (Local : string) (vm : VM.t) (w g : list ascii) :
  VM.IsLocal Local vm = false →
  regexp.search regionRE (list_ascii_of_string (VM.Zone vm)) = Some [Some w; Some g] →
  VM.Locality Local vm
  = Return ("cloud=" ++ VM.Provider vm ++ ",region=" ++ string_of_list_ascii g
            ++ ",zone=" ++ VM.Zone vm).
Proof.
  intros Hloc Hs. unfold VM.Locality, regexp.FindStringSubmatch.
  rewrite Hloc, Hs. cbn [fmap list_fmap length Nat.eqb nth default].
  by rewrite Sprintf_locality.
Qed.

Lemma Locality_of_no_match (Local : string) (vm : VM.t) :
  VM.IsLocal Local vm = false →
  regexp.search regionRE (list_ascii_of_string (VM.Zone vm)) = None →
  VM.Locality Local vm
  = Fatalf "unable to parse region from zone %q" [fmt.ArgString (VM.Zone vm)].
Proof.
  intros Hloc Hs. unfold VM.Locality, regexp.FindStringSubmatch.
  rewrite Hloc, Hs. reflexivity.
Qed.

Lemma Locality_local (Local : string) (vm : VM.t) :
  VM.IsLocal Local vm = true →
  VM.Locality Local vm
  = Return ("cloud=" ++ VM.Provider vm ++ ",region=" ++ VM.Zone vm
            ++ ",zone=" ++ VM.Zone vm).
Proof. intros Hloc. unfold VM.Locality. rewrite Hloc. by rewrite Sprintf_locality. Qed.

(** A VM known by name, provider and zone only. *)
Definition vm_in (name provider zone : string) : VM.t :=
  VM.mk name 0 [] 0 "" provider "" "" "" "" "" "" zone.

(** C6, as the code has it.  [Locality] is "cloud=<provider>,region=<region>,
    zone=<zone>" whenever it returns.  For a local VM the region is the zone
    verbatim.  For a VM that is not local and whose zone is a prefix, a
    hyphen and one lower-case letter, the region is the prefix, provided
    the prefix is not empty, does not end in a hyphen and holds no line
    feed. *)
Theorem Locality_region (Local : string) (vm : VM.t) :
  (VM.IsLocal Local vm = true →
   VM.Locality Local vm
   = Return ("cloud=" ++ VM.Provider vm ++ ",region=" ++ VM.Zone vm
             ++ ",zone=" ++ VM.Zone vm))
  ∧ (∀ (prefix : string) (x l : ascii),
       VM.IsLocal Local vm = false →
       VM.Zone vm = prefix ++ "-" ++ String l "" →
       last_char prefix = Some x →
       x ≠ "-"%char →
       has_newline prefix = false →
       lower l = true →
       VM.Locality Local vm
       = Return ("cloud=" ++ VM.Provider vm ++ ",region=" ++ prefix
                 ++ ",zone=" ++ VM.Zone vm))
  ∧ (∀ s : string,
       VM.Locality Local vm = Return s →
       ∃ region : string,
         s = "cloud=" ++ VM.Provider vm ++ ",region=" ++ region
             ++ ",zone=" ++ VM.Zone vm).
Proof.
  split; [| split].
  - apply Locality_local.
  - intros prefix x l Hloc Hzone Hlast Hx Hnl Hl.
    destruct (last_char_split prefix x Hlast Hnl) as (u & Hu & Hall).
    assert (Htail : region_tail [x; "-"%char; l] = true).
    { apply region_tail_spec. exists x, l. auto. }
    assert (Hs : regexp.search regionRE (list_ascii_of_string (VM.Zone vm))
                 = Some [Some (list_ascii_of_string (VM.Zone vm));
                         Some (list_ascii_of_string prefix)]).
    { rewrite search_regionRE.
      replace (list_ascii_of_string (VM.Zone vm)) with (u ++ x :: ["-"%char; l])%list.
      - rewrite (region_at_prefix u x _ Hall Htail). by rewrite Hu.
      - rewrite Hzone, list_ascii_of_string_app, Hu, <- app_assoc. reflexivity. }
    rewrite (Locality_of_match Local vm _ _ Hloc Hs).
    by rewrite string_of_list_ascii_of_string.
  - intros s. unfold VM.Locality.
    destruct (VM.IsLocal Local vm).
    + rewrite Sprintf_locality. intros [= <-]. eauto.
    + destruct (length _ =? 2)%nat; [| discriminate].
      rewrite Sprintf_locality. intros [= <-]. eauto.
Qed.

(** A zone of GCE, and the local host. *)
Lemma Locality_region_witness :
  VM.Locality "local" (vm_in "c-1" "gce" "us-east1-b")
  = Return "cloud=gce,region=us-east1,zone=us-east1-b"
  ∧ VM.Locality "local" (vm_in "c-2" "local" "local")
    = Return "cloud=local,region=local,zone=local".
Proof.
  split.
  - apply (proj1 (proj2 (Locality_region "local" (vm_in "c-1" "gce" "us-east1-b")))
             "us-east1" "1"%char "b"%char);
      first [reflexivity | discriminate].
  - apply (proj1 (Locality_region "local" (vm_in "c-2" "local" "local"))).
    reflexivity.
Defined.

(** C6 as stated fails twice, here with "local" as the sentinel of the
    local host.  [Locality] does not return for every VM:
    for the zone "us-east1", not local and without a letter at its end, it
    ends the process.  And the zone "us-east1--b" is the prefix "us-east1-",
    a hyphen and the letter b, not local either; [regionRE] wants a
    character other than a hyphen before the optional hyphen, finds no
    match, and [Locality] ends the process instead of returning the prefix
    as the region. *)
Lemma Locality_prefix_counterexample :
  ¬ (∀ vm : VM.t,
       ∃ region : string,
         VM.Locality "local" vm
         = Return ("cloud=" ++ VM.Provider vm ++ ",region=" ++ region
                   ++ ",zone=" ++ VM.Zone vm))
  ∧ ¬ (∀ (vm : VM.t) (prefix : string) (l : ascii),
         VM.IsLocal "local" vm = false →
         lower l = true →
         VM.Zone vm = prefix ++ "-" ++ String l "" →
         VM.Locality "local" vm
         = Return ("cloud=" ++ VM.Provider vm ++ ",region=" ++ prefix
                   ++ ",zone=" ++ VM.Zone vm)).
Proof.
  split.
  - intros Hclaim.
    destruct (Hclaim (vm_in "c-1" "gce" "us-east1")) as [region Hret].
    assert (Hfatal : VM.Locality "local" (vm_in "c-1" "gce" "us-east1")
                     = Fatalf "unable to parse region from zone %q"
                         [fmt.ArgString "us-east1"]) by reflexivity.
    rewrite Hfatal in Hret. discriminate.
  - intros Hclaim.
    specialize (Hclaim (vm_in "c-1" "gce" "us-east1--b") "us-east1-" "b"%char
                  eq_refl eq_refl eq_refl).
    assert (Hfatal : VM.Locality "local" (vm_in "c-1" "gce" "us-east1--b")
                     = Fatalf "unable to parse region from zone %q"
                         [fmt.ArgString "us-east1--b"]) by reflexivity.
    rewrite Hfatal in Hclaim. discriminate.
Qed.

(** C7, as the code has it.  [Locality] fails exactly for a VM that is not
    local and whose zone does not end in a character other than a hyphen,
    an optional hyphen and a lower-case letter; the failure is a call of
    [log.Fatalf], which ends the process, and nothing is returned.  In every
    other case [Locality] returns. *)
Theorem Locality_fatal (Local : string) (vm : VM.t) :
  (VM.Locality Local vm
   = Fatalf "unable to parse region from zone %q" [fmt.ArgString (VM.Zone vm)]
   ↔ VM.IsLocal Local vm = false ∧ ¬ zone_parses (VM.Zone vm))
  ∧ ((∃ s : string, VM.Locality Local vm = Return s)
     ↔ VM.IsLocal Local vm = true ∨ zone_parses (VM.Zone vm))
  ∧ (∀ format args, VM.Locality Local vm = Fatalf format args →
       format = "unable to parse region from zone %q"
       ∧ args = [fmt.ArgString (VM.Zone vm)]).
Proof.
  pose proof (zone_parses_search (VM.Zone vm)) as Hparse.
  destruct (VM.IsLocal Local vm) eqn:Hloc.
  - rewrite (Locality_local Local vm Hloc). split; [| split].
    + split; [discriminate | intros [? _]; discriminate].
    + split; [auto | eauto].
    + discriminate.
  - destruct (regexp.search regionRE (list_ascii_of_string (VM.Zone vm))) as [cs|] eqn:Hs.
    + destruct (search_regionRE_shape _ _ Hs) as (w & g & ->).
      rewrite (Locality_of_match Local vm w g Hloc Hs).
      assert (Hyes : zone_parses (VM.Zone vm)) by (apply Hparse; discriminate).
      split; [| split].
      * split; [discriminate | intros [_ Hno]; contradiction].
      * split; [auto | eauto].
      * discriminate.
    + rewrite (Locality_of_no_match Local vm Hloc Hs).
      assert (Hno : ¬ zone_parses (VM.Zone vm)) by (rewrite Hparse; auto).
      split; [| split].
      * split; auto.
      * split; [intros [s Hret]; discriminate | intros [? | ?]; [discriminate | contradiction]].
      * intros format args [= <- <-]. auto.
Qed.

(** A region where a zone should be: the process ends. *)
Lemma Locality_fatal_witness :
  VM.Locality "local" (vm_in "c-1" "gce" "us-east1")
  = Fatalf "unable to parse region from zone %q" [fmt.ArgString "us-east1"]
  ∧ VM.IsLocal "local" (vm_in "c-1" "gce" "us-east1") = false
  ∧ ¬ zone_parses "us-east1".
Proof.
  split; [reflexivity |].
  apply (proj1 (proj1 (Locality_fatal "local" (vm_in "c-1" "gce" "us-east1")))).
  reflexivity.
Defined.

(** C7 as stated fails, here with "local" as the sentinel of the local
    host: for the zone "us-east1", not local and without a letter at its end, the failure does not come back to the caller as an
    error: no value at all is returned, the process ends. *)
Lemma Locality_recoverable_counterexample :
  ¬ (∀ vm : VM.t,
       VM.IsLocal "local" vm = false →
       ¬ zone_parses (VM.Zone vm) →
       ∃ r : string, VM.Locality "local" vm = Return r).
Proof.
  intros Hclaim.
  destruct (Hclaim (vm_in "c-1" "gce" "us-east1") eq_refl) as [r Hr].
  - rewrite zone_parses_search. intros Hs. apply Hs. reflexivity.
  - discriminate Hr.
Qed.

(** ** Dispatch by name *)

(** The log of an action: the same action on a state that also records, in
    order, the providers the action was invoked with. *)
Definition traced {W S : Type} (action : Provider.t W → S → option error * S)
    : Provider.t W → S * list (Provider.t W) → option error * (S * list (Provider.t W)) :=
  λ p st, let (r, s') := action p st.1 in (r, (s', (st.2 ++ [p])%list)).

Lemma Sprintf_unknown_vm_provider (n : string) :
  fmt.Sprintf "unknown vm provider: %s" [fmt.ArgString n] = "unknown vm provider: " ++ n.
Proof. unfold fmt.Sprintf. cbn. by rewrite append_nil_r. Qed.

Lemma Sprintf_in_provider (n : string) :
  fmt.Sprintf "in provider: %s" [fmt.ArgString n] = "in provider: " ++ n.
Proof. unfold fmt.Sprintf. cbn. by rewrite append_nil_r. Qed.

Lemma Sprintf_unknown_provider_name (n : string) :
  fmt.Sprintf "unknown provider name: %s" [fmt.ArgString n] = "unknown provider name: " ++ n.
Proof. unfold fmt.Sprintf. cbn. by rewrite append_nil_r. Qed.

Local Open Scope list_scope.

(** A provider for the examples: the world counts the account queries. *)
Definition sample_provider (name account : string) (fails : bool) : Provider.t nat :=
  Provider.mk
    (λ w, (None, w)) (λ w, (None, w)) (λ _ _ w, (None, w)) (λ _ w, (None, w))
    (λ _ _ w, (None, w))
    (λ w, ((account, if fails then Some (ErrorNew "no credentials") else None), S w))
    (λ w, (([], None), w))
    name.

Definition sample_registry : gmap string (Provider.t nat) :=
  <["aws" := sample_provider "aws" "alice" false]>
    (<["gce" := sample_provider "gce" "bob" false]> ∅).

(** An action for the examples: it fails on the provider named [bad] and
    counts its invocations. *)
Definition sample_action (bad : string) (p : Provider.t nat) (s : nat) : option error * nat :=
  (if String.eqb (Provider.Name p) bad then Some (ErrorNew "failed") else None, S s).

Section DispatchFacts.

Context {W : Type}.
Variable Providers : gmap string (Provider.t W).

(** C3. [ForProvider] fails with the unknown-provider error, the state
    untouched and the action not invoked, when the name is not in the
    registry; when the name resolves and the action returns an error, it
    returns that error wrapped with the provider name; when the action
    succeeds, it returns success. *)
Theorem ForProvider_outcomes {S : Type} (named : string)
    (action : Provider.t W → S → option error * S) (s : S) :
  (Providers !! named = None →
   ForProvider Providers named action s
   = (Some (ErrorNew ("unknown vm provider: " ++ named)), s)
   ∧ ∀ log, ForProvider Providers named (traced action) (s, log)
            = (Some (ErrorNew ("unknown vm provider: " ++ named)), (s, log)))
  ∧ (∀ p err s', Providers !! named = Some p →
       action p s = (Some err, s') →
       ForProvider Providers named action s
       = (Some (ErrorWrap err ("in provider: " ++ named)), s')
       ∧ errors.Cause (ErrorWrap err ("in provider: " ++ named)) = errors.Cause err)
  ∧ (∀ p s', Providers !! named = Some p →
       action p s = (None, s') →
       ForProvider Providers named action s = (None, s')).
Proof.
  unfold ForProvider. split; [| split].
  - intros ->. rewrite Sprintf_unknown_vm_provider. auto.
  - intros p err s' -> ->. rewrite Sprintf_in_provider. auto.
  - intros p s' -> ->. reflexivity.
Qed.

Lemma ForProvider_traced {S : Type} (named : string)
    (action : Provider.t W → S → option error * S) (s : S) (log : list (Provider.t W)) :
  ForProvider Providers named (traced action) (s, log)
  = ((ForProvider Providers named action s).1,
     ((ForProvider Providers named action s).2,
      (log ++ option_list (Providers !! named))%list)).
Proof.
  unfold ForProvider, traced. destruct (Providers !! named) as [p|]; cbn.
  - destruct (action p s) as [[e|] s']; reflexivity.
  - by rewrite app_nil_r.
Qed.

(** The invocations of [ForProvider] for a list of names, one after the
    other, each of them successful. *)
Inductive all_succeed {S : Type} (action : Provider.t W → S → option error * S)
    : list string → S → S → Prop :=
| all_succeed_nil (s : S) : all_succeed action [] s s
| all_succeed_cons (name : string) (named : list string) (s s1 s2 : S) :
    ForProvider Providers name action s = (None, s1) →
    all_succeed action named s1 s2 →
    all_succeed action (name :: named) s s2.

Lemma ProvidersSequential_success {S : Type}
    (action : Provider.t W → S → option error * S) (named : list string) :
  ∀ s s', ProvidersSequential Providers named action s = (None, s')
          ↔ all_succeed action named s s'.
Proof.
  induction named as [|name named IH]; intros s s'; cbn [ProvidersSequential].
  - split; [intros [= <-]; constructor | inversion 1; reflexivity].
  - destruct (ForProvider Providers name action s) as [[e|] s1] eqn:Hfp.
    + split; [discriminate |]. inversion 1; congruence.
    + rewrite IH. split.
      * intros Hrest. by econstructor.
      * inversion 1; subst. congruence.
Qed.

Lemma ProvidersSequential_app {S : Type}
    (action : Provider.t W → S → option error * S) (pre post : list string) :
  ∀ s, ProvidersSequential Providers (pre ++ post) action s
       = match ProvidersSequential Providers pre action s with
         | (Some err, s') => (Some err, s')
         | (None, s') => ProvidersSequential Providers post action s'
         end.
Proof.
  induction pre as [|name pre IH]; intros s; cbn [app ProvidersSequential].
  - reflexivity.
  - destruct (ForProvider Providers name action s) as [[e|] s1]; [reflexivity | apply IH].
Qed.

(** The log of a sequential run whose invocations all succeed holds the
    providers of all the names, in order. *)
Lemma all_succeed_traced {S : Type}
    (action : Provider.t W → S → option error * S) (named : list string) (s s' : S) :
  all_succeed action named s s' →
  ∀ log, all_succeed (traced action) named (s, log)
           (s', (log ++ omap (λ n, Providers !! n) named)%list).
Proof.
  induction 1 as [s | name named s s1 s2 Hfp Hrest IH]; intros log.
  - cbn. rewrite app_nil_r. constructor.
  - econstructor.
    + rewrite ForProvider_traced, Hfp. reflexivity.
    + specialize (IH (log ++ option_list (Providers !! name))%list).
      rewrite <- app_assoc in IH. cbn [omap list_omap].
      destruct (Providers !! name); exact IH.
Qed.

(** C4. [ProvidersSequential] invokes [ForProvider] for the names in the
    order given.  When the invocations for the names in [pre] succeed and
    the invocation for [name] returns an error, that error is returned
    with the state as that invocation left it, whatever names follow, and
    the action has been invoked for the providers of [pre] and of [name]
    and for no other; when every invocation succeeds, success is
    returned. *)
Theorem ProvidersSequential_fail_fast {S : Type}
    (action : Provider.t W → S → option error * S) :
  (∀ (pre post : list string) (name : string) (s s1 s2 : S) (err : error),
     all_succeed action pre s s1 →
     ForProvider Providers name action s1 = (Some err, s2) →
     ProvidersSequential Providers (pre ++ name :: post) action s = (Some err, s2)
     ∧ ProvidersSequential Providers (pre ++ name :: post) (traced action) (s, [])
       = (Some err, (s2, omap (λ n, Providers !! n) (pre ++ [name]))))
  ∧ (∀ (named : list string) (s s' : S),
       all_succeed action named s s' →
       ProvidersSequential Providers named action s = (None, s')
       ∧ ProvidersSequential Providers named (traced action) (s, [])
         = (None, (s', omap (λ n, Providers !! n) named))).
Proof.
  split.
  - intros pre post name s s1 s2 err Hpre Hfail. split.
    + rewrite ProvidersSequential_app.
      apply ProvidersSequential_success in Hpre. rewrite Hpre.
      cbn [ProvidersSequential]. by rewrite Hfail.
    + rewrite ProvidersSequential_app.
      pose proof (all_succeed_traced action pre s s1 Hpre []) as Hlog.
      apply ProvidersSequential_success in Hlog. rewrite Hlog.
      cbn [ProvidersSequential]. rewrite ForProvider_traced, Hfail.
      cbn [fst snd app]. rewrite omap_app. cbn [omap list_omap].
      destruct (Providers !! name); reflexivity.
  - intros named s s' Hall. split.
    + by apply ProvidersSequential_success.
    + apply ProvidersSequential_success. exact (all_succeed_traced action named s s' Hall []).
Qed.

End DispatchFacts.

(** A name that is not registered, a provider whose action fails, and one
    whose action succeeds. *)
Lemma ForProvider_outcomes_witness :
  ForProvider sample_registry "azure" (sample_action "gce") 0%nat
  = (Some (ErrorNew "unknown vm provider: azure"), 0%nat)
  ∧ ForProvider sample_registry "gce" (sample_action "gce") 0%nat
    = (Some (ErrorWrap (ErrorNew "failed") "in provider: gce"), 1%nat)
  ∧ ForProvider sample_registry "aws" (sample_action "gce") 0%nat = (None, 1%nat).
Proof.
  pose proof (ForProvider_outcomes sample_registry "azure" (sample_action "gce") 0%nat)
    as (Hunknown & _ & _).
  pose proof (ForProvider_outcomes sample_registry "gce" (sample_action "gce") 0%nat)
    as (_ & Hfail & _).
  pose proof (ForProvider_outcomes sample_registry "aws" (sample_action "gce") 0%nat)
    as (_ & _ & Hok).
  split; [| split].
  - apply Hunknown. reflexivity.
  - apply (Hfail (sample_provider "gce" "bob" false) (ErrorNew "failed") 1%nat); reflexivity.
  - apply (Hok (sample_provider "aws" "alice" false) 1%nat); reflexivity.
Defined.

(** The names aws, gce, azure with an action that fails on gce: the action
    runs for aws and gce, and azure is never looked at. *)
Lemma ProvidersSequential_fail_fast_witness :
  ProvidersSequential sample_registry ["aws"; "gce"; "azure"] (sample_action "gce") 0%nat
  = (Some (ErrorWrap (ErrorNew "failed") "in provider: gce"), 2%nat)
  ∧ ProvidersSequential sample_registry ["aws"; "gce"; "azure"]
      (traced (sample_action "gce")) (0%nat, [])
    = (Some (ErrorWrap (ErrorNew "failed") "in provider: gce"),
       (2%nat, [sample_provider "aws" "alice" false; sample_provider "gce" "bob" false])).
Proof.
  apply (proj1 (ProvidersSequential_fail_fast sample_registry (sample_action "gce"))
           ["aws"] ["azure"] "gce" 0%nat 1%nat 2%nat
           (ErrorWrap (ErrorNew "failed") "in provider: gce")).
  - apply (all_succeed_cons sample_registry _ "aws" [] 0%nat 1%nat 1%nat);
      [reflexivity | constructor].
  - reflexivity.
Defined.

(** ** Goroutines that all run *)

(** The functions of a list run one after the other, whatever they return;
    the results are kept in the order of the run. *)
Fixpoint run_each {S : Type} (fs : list (S → option error * S)) (s : S)
    : list (option error) * S :=
  match fs with
  | [] => ([], s)
  | f :: fs' =>
      let (r, s1) := f s in
      let (rs, s2) := run_each fs' s1 in
      (r :: rs, s2)
  end.

(** The first error in a list of results. *)
Definition first_error (rs : list (option error)) : option error :=
  head (omap id rs).

Lemma first_error_cons (r : option error) (rs : list (option error)) :
  first_error (r :: rs) = match r with Some e => Some e | None => first_error rs end.
Proof. unfold first_error. by destruct r. Qed.

Lemma first_error_None (rs : list (option error)) :
  first_error rs = None ↔ Forall (λ r, r = None) rs.
Proof.
  induction rs as [|r rs IH]; [by split |].
  rewrite first_error_cons. destruct r as [e|].
  - split; [discriminate | by inversion 1].
  - rewrite IH. split; [by constructor | by inversion 1].
Qed.

(** The error returned is the first in the order of the run: every result
    before it is a success. *)
Lemma first_error_Some (rs : list (option error)) (e : error) :
  first_error rs = Some e
  ↔ ∃ k, rs !! k = Some (Some e) ∧ ∀ j, (j < k)%nat → rs !! j = Some None.
Proof.
  induction rs as [|r rs IH].
  - split; [discriminate | intros (k & Hk & _); by rewrite lookup_nil in Hk].
  - rewrite first_error_cons. destruct r as [e'|].
    + split.
      * intros [= ->]. exists 0%nat. split; [reflexivity | intros j Hj; lia].
      * intros (k & Hk & Hbefore). destruct k as [|k]; [by injection Hk as -> |].
        specialize (Hbefore 0%nat ltac:(lia)). discriminate.
    + rewrite IH. split.
      * intros (k & Hk & Hbefore). exists (S k). split; [exact Hk |].
        intros [|j] Hj; [reflexivity | apply Hbefore; lia].
      * intros (k & Hk & Hbefore). destruct k as [|k]; [discriminate |].
        exists k. split; [exact Hk |].
        intros j Hj. apply (Hbefore (S j)). lia.
Qed.

Lemma length_run_each {S : Type} (fs : list (S → option error * S)) :
  ∀ s, length (run_each fs s).1 = length fs.
Proof.
  induction fs as [|f fs IH]; intros s; cbn [run_each]; [reflexivity |].
  destruct (f s) as [r s1]. specialize (IH s1).
  destruct (run_each fs s1) as [rs s2]. cbn in *. by rewrite IH.
Qed.

Lemma foldl_goroutine {S : Type} (fs : list (S → option error * S)) :
  ∀ (e : option error) (s : S),
    foldl (λ st f, errgroup.goroutine f st) (e, s) fs
    = (match e with Some e' => Some e' | None => first_error (run_each fs s).1 end,
       (run_each fs s).2).
Proof.
  induction fs as [|f fs IH]; intros e s; cbn [foldl run_each].
  - by destruct e.
  - unfold errgroup.goroutine at 2. cbn [fst snd].
    destruct (f s) as [r s1]. rewrite IH.
    destruct (run_each fs s1) as [rs s2]. cbn [fst snd].
    rewrite first_error_cons. destruct e; [reflexivity |]. by destruct r.
Qed.

Lemma launched_foldl_Go {S A : Type} (f : A → S → option error * S) (l : list A) :
  ∀ g : errgroup.Group S,
    errgroup.launched (foldl (λ g x, errgroup.Go g (f x)) g l)
    = errgroup.launched g ++ (f <$> l)
    ∧ errgroup.err (foldl (λ g x, errgroup.Go g (f x)) g l) = errgroup.err g.
Proof.
  induction l as [|x l IH]; intros g; cbn [foldl fmap list_fmap].
  - by rewrite app_nil_r.
  - destruct (IH (errgroup.Go g (f x))) as [-> ->]. cbn. by rewrite <- app_assoc.
Qed.

Lemma pick_fmap {A B : Type} (f : A → B) (order : list nat) (l : list A) :
  pick order (f <$> l) = f <$> pick order l.
Proof.
  unfold pick. induction order as [|i order IH]; [reflexivity |].
  cbn [omap list_omap]. rewrite list_lookup_fmap, IH.
  by destruct (l !! i).
Qed.

Lemma pick_seq {A : Type} (l : list A) :
  ∀ p : list A, pick (seq (length p) (length l)) (p ++ l) = l.
Proof.
  unfold pick. induction l as [|x l IH]; intros p; [reflexivity |].
  cbn [length seq omap list_omap].
  rewrite lookup_app_r, Nat.sub_diag by lia. cbn.
  f_equal. specialize (IH (p ++ [x])).
  rewrite length_app, <- app_assoc in IH. cbn in IH.
  by rewrite Nat.add_1_r in IH.
Qed.

(** An order that is a permutation of all positions visits every element
    once. *)
Lemma pick_Permutation {A : Type} (order : list nat) (l : list A) :
  order ≡ₚ seq 0 (length l) → pick order l ≡ₚ l.
Proof.
  intros Hperm. unfold pick. rewrite Hperm.
  pose proof (pick_seq l []) as Hall. unfold pick in Hall. cbn [length app] in Hall.
  by rewrite Hall.
Qed.

Lemma length_pick {A : Type} (order : list nat) (l : list A) :
  order ≡ₚ seq 0 (length l) → length (pick order l) = length l.
Proof. intros Hperm. by rewrite (pick_Permutation order l Hperm). Qed.

Section ParallelFacts.

Context {W : Type}.
Variable Providers : gmap string (Provider.t W).

Lemma ProvidersParallel_run {S : Type} (sched : list nat) (named : list string)
    (action : Provider.t W → S → option error * S) (s : S) :
  ProvidersParallel Providers sched named action s
  = (first_error (run_each ((λ n, ForProvider Providers n action) <$> pick sched named) s).1,
     (run_each ((λ n, ForProvider Providers n action) <$> pick sched named) s).2).
Proof.
  unfold ProvidersParallel, errgroup.Wait.
  destruct (launched_foldl_Go (λ n, ForProvider Providers n action) named errgroup.zero)
    as [-> ->].
  cbn [errgroup.zero errgroup.launched errgroup.err app].
  by rewrite pick_fmap, foldl_goroutine.
Qed.

Lemma run_each_traced {S : Type} (action : Provider.t W → S → option error * S)
    (names : list string) :
  ∀ (s : S) (log : list (Provider.t W)),
    run_each ((λ n, ForProvider Providers n (traced action)) <$> names) (s, log)
    = ((run_each ((λ n, ForProvider Providers n action) <$> names) s).1,
       ((run_each ((λ n, ForProvider Providers n action) <$> names) s).2,
        log ++ omap (λ n, Providers !! n) names)).
Proof.
  induction names as [|n names IH]; intros s log; cbn [fmap list_fmap run_each].
  - cbn. by rewrite app_nil_r.
  - rewrite ForProvider_traced.
    destruct (ForProvider Providers n action s) as [r s1]. cbn [fst snd].
    change (list_fmap _ _ ?f names) with (f <$> names).
    rewrite IH.
    destruct (run_each ((λ n, ForProvider Providers n action) <$> names) s1) as [rs s2].
    cbn [fst snd omap list_omap]. rewrite <- app_assoc.
    by destruct (Providers !! n).
Qed.

(** C5. Under every schedule, [ProvidersParallel] runs [ForProvider] once
    for each name of the list, whatever the other invocations return; its
    result is the state after all of them and the first error in the order
    of the run, success if there is none.  The action is invoked once for
    each name that resolves. *)
Theorem ProvidersParallel_wait_all {S : Type} (sched : list nat) (named : list string)
    (action : Provider.t W → S → option error * S) (s : S) :
  sched ≡ₚ seq 0 (length named) →
  let ran := pick sched named in
  let outcome := run_each ((λ n, ForProvider Providers n action) <$> ran) s in
  ran ≡ₚ named
  ∧ length outcome.1 = length named
  ∧ ProvidersParallel Providers sched named action s
    = (first_error outcome.1, outcome.2)
  ∧ ProvidersParallel Providers sched named (traced action) (s, [])
    = (first_error outcome.1, (outcome.2, omap (λ n, Providers !! n) ran))
  ∧ (first_error outcome.1 = None ↔ Forall (λ r, r = None) outcome.1)
  ∧ (∀ e, first_error outcome.1 = Some e
          ↔ ∃ k, outcome.1 !! k = Some (Some e)
                 ∧ ∀ j, (j < k)%nat → outcome.1 !! j = Some None).
Proof.
  intros Hsched ran outcome.
  split; [by apply pick_Permutation |].
  split; [unfold outcome; rewrite length_run_each, length_fmap; by apply length_pick |].
  split; [apply ProvidersParallel_run |].
  split; [rewrite ProvidersParallel_run, run_each_traced; reflexivity |].
  split; [apply first_error_None | apply first_error_Some].
Qed.

End ParallelFacts.

(** The names aws, azure, gce; the goroutine of gce runs first and its
    action fails, then aws, then azure, which is not registered: all three
    run, the action is invoked for gce and for aws, and the error of gce is
    returned. *)
Lemma ProvidersParallel_wait_all_witness :
  ProvidersParallel sample_registry [2; 0; 1]%nat ["aws"; "azure"; "gce"]
    (traced (sample_action "gce")) (0%nat, [])
  = (Some (ErrorWrap (ErrorNew "failed") "in provider: gce"),
     (2%nat, [sample_provider "gce" "bob" false; sample_provider "aws" "alice" false])).
Proof.
  assert (Hsched : [2; 0; 1]%nat ≡ₚ seq 0 (length ["aws"; "azure"; "gce"])).
  { apply (bool_decide_unpack _). vm_compute. exact I. }
  pose proof (ProvidersParallel_wait_all sample_registry [2; 0; 1]%nat
                ["aws"; "azure"; "gce"] (sample_action "gce") 0%nat Hsched)
    as (_ & _ & _ & Hlog & _).
  rewrite Hlog. reflexivity.
Defined.

(** ** FanOut: the groups *)

Lemma collate_snoc (vl : List) (vm : VM.t) :
  collate (vl ++ [vm])
  = <[VM.Provider vm := default [] (collate vl !! VM.Provider vm) ++ [vm]]> (collate vl).
Proof. unfold collate. by rewrite foldl_snoc. Qed.

(** The group of a provider is the sub-list of its VMs, in the order of the
    input; a provider without VM has no group. *)
Lemma collate_lookup (vl : List) (n : string) :
  collate vl !! n
  = match filter (λ vm, VM.Provider vm = n) vl with
    | [] => None
    | sub => Some sub
    end.
Proof.
  induction vl as [|vm vl IH] using rev_ind.
  - unfold collate. cbn [foldl]. by rewrite lookup_empty.
  - rewrite collate_snoc, filter_app.
    destruct (decide (VM.Provider vm = n)) as [Heq | Hne].
    + rewrite (filter_cons_True _ vm []), filter_nil by exact Heq.
      rewrite Heq, lookup_insert_eq, IH.
      by destruct (filter (λ vm0, VM.Provider vm0 = n) vl).
    + rewrite (filter_cons_False _ vm []), filter_nil, app_nil_r by exact Hne.
      rewrite lookup_insert_ne, IH by exact Hne. reflexivity.
Qed.

Lemma collate_Some (vl : List) (n : string) (sub : List) :
  collate vl !! n = Some sub ↔ sub = filter (λ vm, VM.Provider vm = n) vl ∧ sub ≠ [].
Proof.
  rewrite collate_lookup.
  destruct (filter (λ vm, VM.Provider vm = n) vl) as [|x r].
  - split; [discriminate | intros [-> Hne]; contradiction].
  - split; [intros [= <-]; split; [reflexivity | discriminate] | by intros [-> _]].
Qed.

Lemma collate_is_Some (vl : List) (n : string) :
  is_Some (collate vl !! n) ↔ n ∈ VM.Provider <$> vl.
Proof.
  rewrite list_elem_of_fmap. split.
  - intros [sub Hsub]. apply collate_Some in Hsub as [-> Hne].
    destruct (filter (λ vm, VM.Provider vm = n) vl) as [|vm r] eqn:Hf; [contradiction |].
    assert (Hin : vm ∈ filter (λ vm, VM.Provider vm = n) vl) by (rewrite Hf; left).
    apply list_elem_of_filter in Hin as [Hp Hin]. eauto.
  - intros (vm & -> & Hin).
    exists (filter (λ vm0, VM.Provider vm0 = VM.Provider vm) vl).
    apply collate_Some. split; [reflexivity |].
    intros Hnil.
    assert (Hin' : vm ∈ filter (λ vm0, VM.Provider vm0 = VM.Provider vm) vl)
      by (by apply list_elem_of_filter).
    rewrite Hnil in Hin'. by apply not_elem_of_nil in Hin'.
Qed.

(** All the groups of a map, one after the other. *)
Definition groups_concat (m : gmap string List) : List :=
  concat (map_to_list m).*2.

Lemma groups_concat_insert (m : gmap string List) (k : string) (v : List) :
  m !! k = None → groups_concat (<[k := v]> m) ≡ₚ v ++ groups_concat m.
Proof.
  intros Hk. unfold groups_concat. by rewrite (map_to_list_insert m k v Hk).
Qed.

Lemma groups_concat_lookup (m : gmap string List) (k : string) (old : List) :
  m !! k = Some old → groups_concat m ≡ₚ old ++ groups_concat (delete k m).
Proof.
  intros Hk. rewrite <- (insert_delete_id m k old Hk) at 1.
  apply groups_concat_insert, lookup_delete_eq.
Qed.

(** The groups together hold every VM of the input as often as the input
    does. *)
Lemma collate_Permutation (vl : List) : groups_concat (collate vl) ≡ₚ vl.
Proof.
  induction vl as [|vm vl IH] using rev_ind; [reflexivity |].
  rewrite collate_snoc.
  destruct (collate vl !! VM.Provider vm) as [old|] eqn:Hk; cbn [default].
  - rewrite <- insert_delete_eq.
    rewrite groups_concat_insert by apply lookup_delete_eq.
    transitivity (groups_concat (collate vl) ++ [vm]);
      [| by apply Permutation_app_tail].
    rewrite (groups_concat_lookup _ _ _ Hk), <- !app_assoc.
    apply Permutation_app_head, Permutation_app_comm.
  - rewrite groups_concat_insert by exact Hk.
    transitivity ([vm] ++ vl); [by apply Permutation_app_head | apply Permutation_app_comm].
Qed.

(** ** FanOut: the invocations *)

(** The log of a [FanOut] action: the providers and the collections it was
    invoked with, in order. *)
Definition traced_list {W S : Type} (action : Provider.t W → List → S → option error * S)
    : Provider.t W → List → S * list (Provider.t W * List)
      → option error * (S * list (Provider.t W * List)) :=
  λ p v st, let (r, s') := action p v st.1 in (r, (s', st.2 ++ [(p, v)])).

Lemma run_each_lookup_const {S : Type} (fs : list (S → option error * S))
    (f : S → option error * S) (r : option error) :
  (∀ s, (f s).1 = r) →
  ∀ (k : nat) (s : S), fs !! k = Some f → (run_each fs s).1 !! k = Some r.
Proof.
  intros Hconst. induction fs as [|g fs IH]; intros k s Hk; [by rewrite lookup_nil in Hk |].
  cbn [run_each]. destruct (g s) as [rg s1] eqn:Hg.
  specialize (IH (pred k) s1).
  destruct (run_each fs s1) as [rs s2]. cbn [fst] in *.
  destruct k as [|k]; cbn in *.
  - injection Hk as ->. by rewrite <- (Hconst s), Hg.
  - by apply IH.
Qed.

Lemma ran_Permutation {V : Type} (order sched : list nat) (m : gmap string V) :
  order ≡ₚ seq 0 (size m) →
  sched ≡ₚ seq 0 (size m) →
  pick sched (range_map order m) ≡ₚ map_to_list m.
Proof.
  intros Horder Hsched. unfold range_map.
  rewrite <- (length_map_to_list m) in Horder, Hsched.
  rewrite <- (length_pick order (map_to_list m) Horder) in Hsched.
  rewrite (pick_Permutation sched _ Hsched).
  by apply pick_Permutation.
Qed.

Section FanOutFacts.

Context {W : Type}.
Variable Providers : gmap string (Provider.t W).

Lemma FanOut_run {S : Type} (order sched : list nat) (vl : List)
    (action : Provider.t W → List → S → option error * S) (s : S) :
  FanOut Providers order sched vl action s
  = (first_error (run_each ((λ e, fanOutTask Providers action e.1 e.2)
                              <$> pick sched (range_map order (collate vl))) s).1,
     (run_each ((λ e, fanOutTask Providers action e.1 e.2)
                  <$> pick sched (range_map order (collate vl))) s).2).
Proof.
  unfold FanOut, errgroup.Wait.
  destruct (launched_foldl_Go (λ e : string * List, fanOutTask Providers action e.1 e.2)
              (range_map order (collate vl)) errgroup.zero) as [-> ->].
  cbn [errgroup.zero errgroup.launched errgroup.err app].
  by rewrite pick_fmap, foldl_goroutine.
Qed.

Lemma fanOutTask_unknown {S : Type} (action : Provider.t W → List → S → option error * S)
    (n : string) (v : List) (s : S) :
  Providers !! n = None →
  fanOutTask Providers action n v s
  = (Some (ErrorNew ("unknown provider name: " ++ n)), s).
Proof. intros Hn. unfold fanOutTask. by rewrite Hn, Sprintf_unknown_provider_name. Qed.

Lemma fanOutTask_known {S : Type} (action : Provider.t W → List → S → option error * S)
    (n : string) (p : Provider.t W) (v : List) (s : S) :
  Providers !! n = Some p →
  fanOutTask Providers action n v s = action p v s.
Proof. intros Hn. unfold fanOutTask. by rewrite Hn. Qed.

(** The invocation a group leads to, if its provider is registered. *)
Definition delivery (e : string * List) : option (Provider.t W * List) :=
  (λ p, (p, e.2)) <$> Providers !! e.1.

Lemma fanOutTask_traced {S : Type} (action : Provider.t W → List → S → option error * S)
    (e : string * List) (s : S) (log : list (Provider.t W * List)) :
  fanOutTask Providers (traced_list action) e.1 e.2 (s, log)
  = ((fanOutTask Providers action e.1 e.2 s).1,
     ((fanOutTask Providers action e.1 e.2 s).2, log ++ option_list (delivery e))).
Proof.
  unfold fanOutTask, traced_list, delivery.
  destruct (Providers !! e.1) as [p|]; cbn.
  - by destruct (action p e.2 s).
  - by rewrite app_nil_r.
Qed.

Lemma run_each_fanOut_traced {S : Type}
    (action : Provider.t W → List → S → option error * S) (es : list (string * List)) :
  ∀ (s : S) (log : list (Provider.t W * List)),
    run_each ((λ e, fanOutTask Providers (traced_list action) e.1 e.2) <$> es) (s, log)
    = ((run_each ((λ e, fanOutTask Providers action e.1 e.2) <$> es) s).1,
       ((run_each ((λ e, fanOutTask Providers action e.1 e.2) <$> es) s).2,
        log ++ omap delivery es)).
Proof.
  induction es as [|e es IH]; intros s log; cbn [fmap list_fmap run_each].
  - cbn. by rewrite app_nil_r.
  - rewrite fanOutTask_traced.
    destruct (fanOutTask Providers action e.1 e.2 s) as [r s1]. cbn [fst snd].
    change (list_fmap _ _ ?f es) with (f <$> es).
    rewrite IH.
    destruct (run_each ((λ e, fanOutTask Providers action e.1 e.2) <$> es) s1) as [rs s2].
    cbn [fst snd omap list_omap]. rewrite <- app_assoc.
    by destruct (delivery e).
Qed.

(** C1. [FanOut] partitions the collection by provider: the group of a
    name is the sub-list of the VMs with that provider, in input order;
    there is a group for a name exactly when some VM has that provider;
    a VM is found in the group of its own provider only; the groups
    together hold every VM as often as the input does; and under every
    order of the loop and every schedule one function is started and run
    for each group, with that group. *)
Theorem FanOut_partition {S : Type} (vl : List) :
  (∀ n sub, collate vl !! n = Some sub
            ↔ sub = filter (λ vm, VM.Provider vm = n) vl ∧ sub ≠ [])
  ∧ (∀ n, is_Some (collate vl !! n) ↔ n ∈ VM.Provider <$> vl)
  ∧ (∀ n sub, collate vl !! n = Some sub → sub `sublist_of` vl)
  ∧ (∀ vm, vm ∈ vl →
       ∃ sub, collate vl !! VM.Provider vm = Some sub ∧ vm ∈ sub
              ∧ ∀ n sub', collate vl !! n = Some sub' → vm ∈ sub' → n = VM.Provider vm)
  ∧ groups_concat (collate vl) ≡ₚ vl
  ∧ (∀ (order sched : list nat) (action : Provider.t W → List → S → option error * S)
       (s : S),
       order ≡ₚ seq 0 (size (collate vl)) →
       sched ≡ₚ seq 0 (size (collate vl)) →
       let ran := pick sched (range_map order (collate vl)) in
       let outcome := run_each ((λ e, fanOutTask Providers action e.1 e.2) <$> ran) s in
       ran ≡ₚ map_to_list (collate vl)
       ∧ concat ran.*2 ≡ₚ vl
       ∧ FanOut Providers order sched vl action s = (first_error outcome.1, outcome.2)).
Proof.
  split; [intros n sub; apply collate_Some |].
  split; [apply collate_is_Some |].
  split.
  { intros n sub [-> _]%collate_Some. apply sublist_filter. }
  split.
  { intros vm Hin.
    destruct (proj2 (collate_is_Some vl (VM.Provider vm))) as [sub Hsub].
    { by apply list_elem_of_fmap_2. }
    exists sub. split; [exact Hsub |].
    split.
    - apply collate_Some in Hsub as [-> _]. by apply list_elem_of_filter.
    - intros n sub' [-> _]%collate_Some [Hp _]%list_elem_of_filter. by symmetry. }
  split; [apply collate_Permutation |].
  intros order sched action s Horder Hsched ran outcome.
  assert (Hran : ran ≡ₚ map_to_list (collate vl)) by (by apply ran_Permutation).
  split; [exact Hran |].
  split; [rewrite Hran; apply collate_Permutation | apply FanOut_run].
Qed.

(** C2. When a provider name of the collection is not in the registry,
    under every order of the loop and every schedule: the function of that
    group runs and returns the unknown-provider error, so [FanOut] returns
    an error; the functions of all groups run; and the action is invoked
    once for every group whose provider is registered, with all the VMs of
    that provider. *)
Theorem FanOut_unknown_provider {S : Type} (order sched : list nat) (vl : List)
    (action : Provider.t W → List → S → option error * S) (s : S) (missing : string) :
  order ≡ₚ seq 0 (size (collate vl)) →
  sched ≡ₚ seq 0 (size (collate vl)) →
  Providers !! missing = None →
  missing ∈ VM.Provider <$> vl →
  let ran := pick sched (range_map order (collate vl)) in
  let outcome := run_each ((λ e, fanOutTask Providers action e.1 e.2) <$> ran) s in
  FanOut Providers order sched vl action s = (first_error outcome.1, outcome.2)
  ∧ length outcome.1 = size (collate vl)
  ∧ (∃ k, ran !! k = Some (missing, filter (λ vm, VM.Provider vm = missing) vl)
          ∧ outcome.1 !! k
            = Some (Some (ErrorNew ("unknown provider name: " ++ missing))))
  ∧ is_Some (first_error outcome.1)
  ∧ FanOut Providers order sched vl (traced_list action) (s, [])
    = (first_error outcome.1, (outcome.2, omap delivery ran))
  ∧ omap delivery ran ≡ₚ omap delivery (map_to_list (collate vl))
  ∧ (∀ n p, n ∈ VM.Provider <$> vl →
       Providers !! n = Some p →
       (p, filter (λ vm, VM.Provider vm = n) vl) ∈ omap delivery ran).
Proof.
  intros Horder Hsched Hmissing Hin ran outcome.
  assert (Hran : ran ≡ₚ map_to_list (collate vl)) by (by apply ran_Permutation).
  assert (Hgroup : ∀ n, n ∈ VM.Provider <$> vl →
            (n, filter (λ vm, VM.Provider vm = n) vl) ∈ ran).
  { intros n Hn. rewrite Hran. apply elem_of_map_to_list.
    apply collate_is_Some in Hn as [sub Hsub].
    by pose proof (proj1 (collate_Some vl n sub) Hsub) as [<- _]. }
  assert (Hk : ∃ k, ran !! k = Some (missing, filter (λ vm, VM.Provider vm = missing) vl)
                    ∧ outcome.1 !! k
                      = Some (Some (ErrorNew ("unknown provider name: " ++ missing)))).
  { destruct (list_elem_of_lookup_1 _ _ (Hgroup missing Hin)) as [k Hk].
    exists k. split; [exact Hk |].
    apply (run_each_lookup_const _
             (fanOutTask Providers action missing
                (filter (λ vm, VM.Provider vm = missing) vl))).
    - intros s0. by rewrite fanOutTask_unknown.
    - by rewrite list_lookup_fmap, Hk. }
  split; [apply FanOut_run |].
  split.
  { unfold outcome. rewrite length_run_each, length_fmap, Hran. apply length_map_to_list. }
  split; [exact Hk |].
  split.
  { destruct (first_error outcome.1) as [e|] eqn:Hfirst; [eauto |].
    apply first_error_None in Hfirst. destruct Hk as (k & _ & Hk).
    apply list_elem_of_lookup_2 in Hk.
    rewrite Forall_forall in Hfirst. by specialize (Hfirst _ Hk). }
  split; [rewrite FanOut_run, run_each_fanOut_traced; reflexivity |].
  split; [by rewrite Hran |].
  intros n p Hn Hp. apply list_elem_of_omap.
  exists (n, filter (λ vm, VM.Provider vm = n) vl).
  split; [by apply Hgroup |].
  unfold delivery. cbn [fst snd]. by rewrite Hp.
Qed.

End FanOutFacts.

(** An action for the examples: it succeeds and counts the VMs it is
    given. *)
Definition sample_list_action (p : Provider.t nat) (v : List) (s : nat)
    : option error * nat :=
  (None, (s + length v)%nat).

(** Three VMs on two registered providers: aws gets c-1 and c-3 in that
    order, gce gets c-2, both functions run and the call succeeds. *)
Lemma FanOut_partition_witness :
  let vl := [vm_in "c-1" "aws" ""; vm_in "c-2" "gce" ""; vm_in "c-3" "aws" ""] in
  collate vl !! "aws" = Some [vm_in "c-1" "aws" ""; vm_in "c-3" "aws" ""]
  ∧ collate vl !! "gce" = Some [vm_in "c-2" "gce" ""]
  ∧ FanOut sample_registry [0; 1]%nat [1; 0]%nat vl (traced_list sample_list_action)
      (0%nat, [])
    = (None,
       (3%nat,
        [(sample_provider "aws" "alice" false,
          [vm_in "c-1" "aws" ""; vm_in "c-3" "aws" ""]);
         (sample_provider "gce" "bob" false, [vm_in "c-2" "gce" ""])])).
Proof.
  intros vl.
  pose proof (FanOut_partition sample_registry (S := nat * list (Provider.t nat * List)) vl)
    as (Hgroup & _ & _ & _ & _ & Hrun).
  split; [apply Hgroup; split; [reflexivity | discriminate] |].
  split; [apply Hgroup; split; [reflexivity | discriminate] |].
  destruct (Hrun [0; 1]%nat [1; 0]%nat (traced_list sample_list_action) (0%nat, []))
    as (_ & _ & ->).
  - apply (bool_decide_unpack _). vm_compute. exact I.
  - apply (bool_decide_unpack _). vm_compute. exact I.
  - reflexivity.
Defined.

(** Four VMs, one of them on azure, which is not registered: the call
    returns the error of that group, and the action still runs for aws with
    c-1 and c-4 and for gce with c-3. *)
Lemma FanOut_unknown_provider_witness :
  let vl := [vm_in "c-1" "aws" ""; vm_in "c-2" "azure" ""; vm_in "c-3" "gce" "";
             vm_in "c-4" "aws" ""] in
  FanOut sample_registry [0; 1; 2]%nat [0; 1; 2]%nat vl (traced_list sample_list_action)
    (0%nat, [])
  = (Some (ErrorNew "unknown provider name: azure"),
     (3%nat, omap (delivery sample_registry)
               (pick [0; 1; 2]%nat (range_map [0; 1; 2]%nat (collate vl)))))
  ∧ (sample_provider "aws" "alice" false, [vm_in "c-1" "aws" ""; vm_in "c-4" "aws" ""])
    ∈ omap (delivery sample_registry)
        (pick [0; 1; 2]%nat (range_map [0; 1; 2]%nat (collate vl)))
  ∧ (sample_provider "gce" "bob" false, [vm_in "c-3" "gce" ""])
    ∈ omap (delivery sample_registry)
        (pick [0; 1; 2]%nat (range_map [0; 1; 2]%nat (collate vl))).
Proof.
  intros vl.
  assert (Hperm : [0; 1; 2]%nat ≡ₚ seq 0 (size (collate vl))).
  { apply (bool_decide_unpack _). vm_compute. exact I. }
  assert (Hmissing : sample_registry !! "azure" = None) by reflexivity.
  assert (Hin : "azure" ∈ VM.Provider <$> vl).
  { apply (bool_decide_unpack _). vm_compute. exact I. }
  pose proof (FanOut_unknown_provider sample_registry [0; 1; 2]%nat [0; 1; 2]%nat vl
                sample_list_action 0%nat "azure" Hperm Hperm Hmissing Hin)
    as (_ & _ & _ & _ & Hlog & _ & Hdelivered).
  split; [rewrite Hlog; reflexivity |].
  split.
  - apply (Hdelivered "aws" (sample_provider "aws" "alice" false)); [| reflexivity].
    apply (bool_decide_unpack _). vm_compute. exact I.
  - apply (Hdelivered "gce" (sample_provider "gce" "bob" false)); [| reflexivity].
    apply (bool_decide_unpack _). vm_compute. exact I.
Defined.

(** ** The cache of active accounts *)

(** The copy loop rebuilds the map it ranges over. *)
Lemma copy_map_id (m : gmap string string) : copy_map m = m.
Proof.
  unfold copy_map.
  apply (map_fold_weak_ind (λ r m, r = m)); [reflexivity |].
  by intros k v m' r _ ->.
Qed.

(** A provider for the examples whose account query fails while the world
    has seen no query, and succeeds afterwards. *)
Definition flaky_provider (name account : string) : Provider.t nat :=
  Provider.mk
    (λ w, (None, w)) (λ w, (None, w)) (λ _ _ w, (None, w)) (λ _ w, (None, w))
    (λ _ _ w, (None, w))
    (λ w, ((account, if (w =? 0)%nat then Some (ErrorNew "token expired") else None), S w))
    (λ w, (([], None), w))
    name.

Definition flaky_registry : gmap string (Provider.t nat) :=
  <["aws" := flaky_provider "aws" "alice"]> ∅.

Section AccountFacts.

Context {W : Type}.
Variable Providers : gmap string (Provider.t W).

Lemma askAccount_frame (source : nat) (p : Provider.t W) (st : memory) :
  length (heap (askAccount source p st).2) = length (heap st)
  ∧ cachedActiveAccounts (askAccount source p st).2 = cachedActiveAccounts st.
Proof.
  unfold askAccount.
  destruct (Provider.FindActiveAccount p (world st)) as [[account [e|]] w];
    cbn -[Nat.ltb]; [done |].
  destruct (0 <? String.length account)%nat; cbn; [| done].
  by rewrite length_insert.
Qed.

Lemma ForProvider_askAccount_frame (source : nat) (name : string) (st : memory) :
  length (heap (ForProvider Providers name (askAccount source) st).2) = length (heap st)
  ∧ cachedActiveAccounts (ForProvider Providers name (askAccount source) st).2
    = cachedActiveAccounts st.
Proof.
  unfold ForProvider. destruct (Providers !! name) as [p|]; [| done].
  pose proof (askAccount_frame source p st) as Hframe.
  by destruct (askAccount source p st) as [[e|] st'].
Qed.

(** Asking the providers neither makes nor drops a map, and leaves the
    cache variable alone. *)
Lemma ProvidersSequential_askAccount_frame (source : nat) (named : list string) :
  ∀ st : memory,
    length (heap (ProvidersSequential Providers named (askAccount source) st).2)
    = length (heap st)
    ∧ cachedActiveAccounts (ProvidersSequential Providers named (askAccount source) st).2
      = cachedActiveAccounts st.
Proof.
  induction named as [|name named IH]; intros st; cbn [ProvidersSequential]; [done |].
  pose proof (ForProvider_askAccount_frame source name st) as [Hlen Hcache].
  destruct (ForProvider Providers name (askAccount source) st) as [[e|] st1]; [done |].
  cbn [snd] in Hlen, Hcache. destruct (IH st1) as [-> ->]. done.
Qed.

(** What the rest of the program may do between two calls.  It holds the
    maps [FindActiveAccounts] returned to it and the maps it made itself;
    it may call again, rewrite a map it holds, make a map, and act on the
    world.  The variable [cachedActiveAccounts] is private to the package
    and the map it points to is handed to nobody. *)
Inductive client_step : memory * list nat → memory * list nat → Prop :=
| client_call (order : list nat) (st st' : memory) (held : list nat)
      (ret : option nat) (err : option error) :
    FindActiveAccounts Providers order st = ((ret, err), st') →
    client_step (st, held) (st', held ++ option_list ret)
| client_rewrite (a : nat) (m : gmap string string) (st : memory) (held : list nat) :
    a ∈ held →
    client_step (st, held)
      ({| heap := <[a := m]> (heap st);
          cachedActiveAccounts := cachedActiveAccounts st;
          world := world st |}, held)
| client_make (m : gmap string string) (st : memory) (held : list nat) :
    client_step (st, held) ((make_map m st).2, held ++ [(make_map m st).1])
| client_world (w : W) (st : memory) (held : list nat) :
    client_step (st, held)
      ({| heap := heap st;
          cachedActiveAccounts := cachedActiveAccounts st;
          world := w |}, held).

(** The cache is set to the map at [c], which holds [m] and which the
    client does not hold. *)
Definition cache_holds (c : nat) (m : gmap string string)
    (cfg : @memory W * list nat) : Prop :=
  cachedActiveAccounts cfg.1 = Some c
  ∧ heap cfg.1 !! c = Some m
  ∧ c ∉ cfg.2.

(** A call with the cache set: a new map with the cached contents, and
    nothing else changes. *)
Lemma FindActiveAccounts_cached (order : list nat) (st : memory) (c : nat)
    (m : gmap string string) :
  cachedActiveAccounts st = Some c →
  heap st !! c = Some m →
  FindActiveAccounts Providers order st
  = ((Some (length (heap st)), None),
     {| heap := heap st ++ [m];
        cachedActiveAccounts := Some c;
        world := world st |}).
Proof.
  intros Hcache Hc. unfold FindActiveAccounts, returnCopy, make_map, map_at.
  rewrite Hcache, Hc. cbn [default]. by rewrite copy_map_id.
Qed.

Lemma cache_holds_step (c : nat) (m : gmap string string) (cfg cfg' : memory * list nat) :
  cache_holds c m cfg → client_step cfg cfg' → cache_holds c m cfg'.
Proof.
  intros (Hcache & Hc & Hheld) Hstep.
  pose proof (lookup_lt_Some _ _ _ Hc) as Hlt. unfold cache_holds.
  destruct Hstep as [order st st' held ret err Hcall | a m' st held Ha | m' st held | w st held];
    cbn [fst snd] in *.
  - rewrite (FindActiveAccounts_cached order st c m Hcache Hc) in Hcall.
    injection Hcall as <- <- <-. cbn.
    split; [reflexivity |].
    split; [by apply lookup_app_l_Some |].
    rewrite not_elem_of_app, list_elem_of_singleton. split; [exact Hheld | lia].
  - cbn. split; [exact Hcache |].
    split; [| exact Hheld].
    rewrite list_lookup_insert_ne; [exact Hc |]. by intros ->.
  - cbn. split; [exact Hcache |].
    split; [by apply lookup_app_l_Some |].
    rewrite not_elem_of_app, list_elem_of_singleton. split; [exact Hheld | lia].
  - done.
Qed.

Lemma cache_holds_steps (c : nat) (m : gmap string string) (cfg cfg' : memory * list nat) :
  cache_holds c m cfg → rtc client_step cfg cfg' → cache_holds c m cfg'.
Proof. intros Hinv Hsteps. induction Hsteps; eauto using cache_holds_step. Qed.

(** The first call, when it succeeds: the answers were gathered in a new
    map, the cache points to it, and the caller gets another new map with
    the same contents. *)
Lemma FindActiveAccounts_first (order : list nat) (st0 st1 : memory) (a : nat) :
  cachedActiveAccounts st0 = None →
  FindActiveAccounts Providers order st0 = ((Some a, None), st1) →
  let c := length (heap st0) in
  a = S c
  ∧ cachedActiveAccounts st1 = Some c
  ∧ heap st1 !! a = heap st1 !! c
  ∧ is_Some (heap st1 !! c)
  ∧ length (heap st1) = S a.
Proof.
  intros Hcache Hcall c. unfold FindActiveAccounts in Hcall.
  rewrite Hcache in Hcall. cbn [make_map] in Hcall. fold c in Hcall.
  pose proof (ProvidersSequential_askAccount_frame c (AllProviderNames Providers order)
                {| heap := heap st0 ++ [∅];
                   cachedActiveAccounts := cachedActiveAccounts st0;
                   world := world st0 |}) as [Hlen _].
  destruct (ProvidersSequential _ _ _ _) as [[e|] st'] in Hcall, Hlen; [discriminate |].
  cbn [snd heap] in Hlen. rewrite length_app in Hlen. cbn [length] in Hlen. fold c in Hlen.
  unfold returnCopy, make_map, map_at in Hcall. cbn in Hcall.
  injection Hcall as <- <-. cbn.
  assert (Hc : is_Some (heap st' !! c)) by (apply lookup_lt_is_Some; lia).
  destruct Hc as [m Hm]. rewrite Hm. cbn [default].
  split; [lia |].
  split; [reflexivity |].
  split.
  { rewrite (lookup_app_l_Some _ _ _ _ Hm).
    rewrite lookup_app_r, Nat.sub_diag by lia. cbn. by rewrite copy_map_id. }
  split; [rewrite (lookup_app_l_Some _ _ _ _ Hm); eauto |].
  rewrite length_app. cbn. lia.
Qed.

(** A call keeps the maps there are and adds at most two; the map it
    returns is among them. *)
Lemma FindActiveAccounts_heap (order : list nat) (st st' : memory)
    (ret : option nat) (err : option error) :
  FindActiveAccounts Providers order st = ((ret, err), st') →
  (length (heap st) <= length (heap st'))%nat
  ∧ ∀ b, ret = Some b → (b < length (heap st'))%nat.
Proof.
  unfold FindActiveAccounts, returnCopy. cbn [make_map].
  destruct (cachedActiveAccounts st) as [src|].
  - intros [= <- <- <-]. cbn. rewrite length_app. cbn.
    split; [lia | intros b [= <-]; lia].
  - pose proof (ProvidersSequential_askAccount_frame (length (heap st))
                  (AllProviderNames Providers order)
                  {| heap := heap st ++ [∅];
                     cachedActiveAccounts := None;
                     world := world st |}) as [Hlen _].
    destruct (ProvidersSequential Providers (AllProviderNames Providers order)
                (askAccount (length (heap st))) _) as [[e|] st2].
    + cbn [snd heap] in Hlen. rewrite length_app in Hlen. cbn [length] in Hlen.
      intros [= <- <- <-]. split; [lia | discriminate].
    + cbn [snd heap] in Hlen. rewrite length_app in Hlen. cbn [length] in Hlen.
      intros [= <- <- <-]. cbn. rewrite length_app. cbn.
      split; [lia | intros b [= <-]; lia].
Qed.

(** The maps the client holds exist. *)
Definition held_valid (cfg : @memory W * list nat) : Prop :=
  ∀ x, x ∈ cfg.2 → (x < length (heap cfg.1))%nat.

Lemma held_valid_step (cfg cfg' : memory * list nat) :
  held_valid cfg → client_step cfg cfg' → held_valid cfg'.
Proof.
  unfold held_valid. intros Hheld Hstep.
  destruct Hstep as [order st st' held ret err Hcall | a m' st held Ha | m' st held
                    | w st held]; cbn [fst snd] in *.
  - destruct (FindActiveAccounts_heap order st st' ret err Hcall) as [Hle Hret].
    intros x [Hx | Hx]%elem_of_app.
    + specialize (Hheld x Hx). lia.
    + destruct ret as [b|]; [| by apply not_elem_of_nil in Hx].
      apply list_elem_of_singleton in Hx as ->. by apply Hret.
  - cbn. intros x Hx. rewrite length_insert. by apply Hheld.
  - cbn. intros x [Hx | Hx]%elem_of_app; rewrite length_app; cbn.
    + specialize (Hheld x Hx). lia.
    + apply list_elem_of_singleton in Hx as ->. lia.
  - exact Hheld.
Qed.

Lemma held_valid_steps (cfg cfg' : memory * list nat) :
  held_valid cfg → rtc client_step cfg cfg' → held_valid cfg'.
Proof. intros Hinv Hsteps. induction Hsteps; eauto using held_valid_step. Qed.

(** C8. After a first successful call the cache holds the mapping it
    computed, and the caller holds a different map with the same contents.
    Whatever the rest of the program then does with the maps it holds, the
    cache stays as it is, and every later call leaves the providers alone
    and returns a new map, held by nobody so far, with the contents of the
    cache. *)
Theorem FindActiveAccounts_copies (order : list nat) (st0 st1 : memory) (a : nat) :
  cachedActiveAccounts st0 = None →
  FindActiveAccounts Providers order st0 = ((Some a, None), st1) →
  ∃ (c : nat) (m : gmap string string),
    cachedActiveAccounts st1 = Some c
    ∧ a ≠ c
    ∧ heap st1 !! c = Some m
    ∧ heap st1 !! a = Some m
    ∧ ∀ (st : memory) (held : list nat),
        rtc client_step (st1, [a]) (st, held) →
        cachedActiveAccounts st = Some c
        ∧ heap st !! c = Some m
        ∧ ∀ order' : list nat,
            ∃ b : nat,
              FindActiveAccounts Providers order' st
              = ((Some b, None),
                 {| heap := heap st ++ [m];
                    cachedActiveAccounts := Some c;
                    world := world st |})
              ∧ b = length (heap st)
              ∧ (b ∉ held)
              ∧ b ≠ c
              ∧ (heap st ++ [m]) !! b = Some m.
Proof.
  intros Hcache Hcall.
  destruct (FindActiveAccounts_first order st0 st1 a Hcache Hcall)
    as (Ha & Hcache1 & Hsame & [m Hm] & Hlen).
  exists (length (heap st0)), m.
  split; [exact Hcache1 |].
  split; [lia |].
  split; [exact Hm |].
  split; [by rewrite Hsame |].
  intros st held Hsteps.
  assert (Hinv : cache_holds (length (heap st0)) m (st1, [a])).
  { split; [exact Hcache1 |]. split; [exact Hm |].
    cbn. rewrite list_elem_of_singleton. lia. }
  assert (Hvalid : held_valid (st, held)).
  { apply (held_valid_steps (st1, [a])); [| exact Hsteps].
    intros x ->%list_elem_of_singleton. cbn. lia. }
  pose proof (cache_holds_steps _ _ _ _ Hinv Hsteps) as (Hc & Hmc & Hnot).
  cbn [fst snd] in Hc, Hmc, Hnot.
  split; [exact Hc |]. split; [exact Hmc |].
  intros order'. exists (length (heap st)).
  split; [by apply FindActiveAccounts_cached |].
  split; [reflexivity |].
  split.
  { intros Hb. specialize (Hvalid _ Hb). cbn in Hvalid. lia. }
  split.
  { apply lookup_lt_Some in Hmc. lia. }
  rewrite lookup_app_r, Nat.sub_diag by lia. reflexivity.
Qed.

Lemma all_succeed_askAccount_cache (source : nat) (named : list string)
    (st st' : memory) :
  all_succeed Providers (askAccount source) named st st' →
  cachedActiveAccounts st' = cachedActiveAccounts st.
Proof.
  intros Hall. apply ProvidersSequential_success in Hall.
  pose proof (ProvidersSequential_askAccount_frame source named st) as [_ Hcache].
  by rewrite Hall in Hcache.
Qed.

(** C9. In a call without cache, when the providers asked first answer
    and the next one returns an error, [FindActiveAccounts] returns a nil
    map and that error, wrapped by [ForProvider] with the name of the
    provider; the cache stays unset; and the next call again makes an
    empty map and asks the providers from the first one on. *)
Theorem FindActiveAccounts_error (order : list nat) (st st_mid : memory)
    (pre post : list string) (name : string) (p : Provider.t W)
    (account : string) (err : error) (w' : W) :
  cachedActiveAccounts st = None →
  AllProviderNames Providers order = pre ++ name :: post →
  all_succeed Providers (askAccount (length (heap st))) pre (make_map ∅ st).2 st_mid →
  Providers !! name = Some p →
  Provider.FindActiveAccount p (world st_mid) = ((account, Some err), w') →
  let st' := {| heap := heap st_mid;
                cachedActiveAccounts := cachedActiveAccounts st_mid;
                world := w' |} in
  FindActiveAccounts Providers order st
  = ((None, Some (ErrorWrap err ("in provider: " ++ name)%string)), st')
  ∧ errors.Cause (ErrorWrap err ("in provider: " ++ name)%string) = errors.Cause err
  ∧ cachedActiveAccounts st' = None
  ∧ ∀ order' : list nat,
      FindActiveAccounts Providers order' st'
      = match ProvidersSequential Providers (AllProviderNames Providers order')
                (askAccount (length (heap st'))) (make_map ∅ st').2 with
        | (Some e, st2) => ((None, Some e), st2)
        | (None, st2) =>
            returnCopy (length (heap st'))
              {| heap := heap st2;
                 cachedActiveAccounts := Some (length (heap st'));
                 world := world st2 |}
        end.
Proof.
  intros Hcache Hnames Hpre Hp Hfail st'.
  assert (Hcache' : cachedActiveAccounts st_mid = None).
  { rewrite (all_succeed_askAccount_cache _ _ _ _ Hpre). exact Hcache. }
  split; [| split; [reflexivity | split; [exact Hcache' |]]].
  - unfold FindActiveAccounts. rewrite Hcache, Hnames.
    cbn [make_map fst snd] in *.
    rewrite ProvidersSequential_app.
    apply ProvidersSequential_success in Hpre. rewrite Hpre.
    cbn [ProvidersSequential]. unfold ForProvider at 1. rewrite Hp.
    unfold askAccount at 1. rewrite Hfail. by rewrite Sprintf_in_provider.
  - intros order'. unfold FindActiveAccounts.
    change (cachedActiveAccounts st') with (cachedActiveAccounts st_mid).
    rewrite Hcache'. reflexivity.
Qed.

End AccountFacts.

(** Two providers answer; the caller overwrites the map it got; the next
    call still returns the accounts first computed, in a new map. *)
Lemma FindActiveAccounts_copies_witness :
  let st0 : @memory nat := {| heap := []; cachedActiveAccounts := None; world := 0%nat |} in
  let st1 := (FindActiveAccounts sample_registry [0; 1]%nat st0).2 in
  ∃ m : gmap string string,
    heap st1 !! 1%nat = Some m
    ∧ m !! "aws" = Some "alice"
    ∧ ∀ m' : gmap string string,
        FindActiveAccounts sample_registry []
          {| heap := <[1%nat := m']> (heap st1);
             cachedActiveAccounts := cachedActiveAccounts st1;
             world := world st1 |}
        = ((Some 2%nat, None),
           {| heap := <[1%nat := m']> (heap st1) ++ [m];
              cachedActiveAccounts := Some 0%nat;
              world := world st1 |}).
Proof.
  intros st0 st1.
  assert (Hcall : FindActiveAccounts sample_registry [0; 1]%nat st0 = ((Some 1%nat, None), st1))
    by (vm_compute; reflexivity).
  destruct (FindActiveAccounts_copies sample_registry [0; 1]%nat st0 st1 1%nat eq_refl Hcall)
    as (c & m & Hc & _ & _ & Hma & Hlater).
  assert (Hc0 : c = 0%nat).
  { assert (Hcached : cachedActiveAccounts st1 = Some 0%nat) by (vm_compute; reflexivity).
    rewrite Hcached in Hc. by injection Hc. }
  subst c. exists m.
  split; [exact Hma |].
  split.
  { assert (Hm : heap st1 !! 1%nat
                 = Some (<["gce" := "bob"]> (<["aws" := "alice"]> ∅) : gmap string string))
      by (vm_compute; reflexivity).
    rewrite Hm in Hma. injection Hma as <-. reflexivity. }
  intros m'.
  destruct (Hlater {| heap := <[1%nat := m']> (heap st1);
                      cachedActiveAccounts := cachedActiveAccounts st1;
                      world := world st1 |} [1%nat]) as (_ & _ & Hnext).
  { apply rtc_once. apply (client_rewrite sample_registry 1%nat m' st1 [1%nat]). left. }
  destruct (Hnext []) as (b & Heq & Hb & _).
  rewrite Heq. subst b. cbn [heap world]. rewrite length_insert.
  assert (Hlen : length (heap st1) = 2%nat) by (vm_compute; reflexivity).
  rewrite Hlen. reflexivity.
Defined.

(** The only provider fails on the first query: nothing is cached; the
    second call asks again, succeeds and caches. *)
Lemma FindActiveAccounts_error_witness :
  let st0 : @memory nat := {| heap := []; cachedActiveAccounts := None; world := 0%nat |} in
  let st1 := {| heap := [∅]; cachedActiveAccounts := None; world := 1%nat |} in
  FindActiveAccounts flaky_registry [0]%nat st0
  = ((None, Some (ErrorWrap (ErrorNew "token expired") "in provider: aws")), st1)
  ∧ cachedActiveAccounts st1 = None
  ∧ FindActiveAccounts flaky_registry [0]%nat st1
    = ((Some 2%nat, None),
       {| heap := [∅; {["aws" := "alice"]}; {["aws" := "alice"]}];
          cachedActiveAccounts := Some 1%nat;
          world := 2%nat |}).
Proof.
  intros st0 st1.
  pose proof (FindActiveAccounts_error flaky_registry [0]%nat st0
                {| heap := [∅]; cachedActiveAccounts := None; world := 0%nat |}
                [] [] "aws" (flaky_provider "aws" "alice") "alice"
                (ErrorNew "token expired") 1%nat
                eq_refl eq_refl (all_succeed_nil flaky_registry _ _) eq_refl eq_refl)
    as (Hret & _ & Hcache & Hnext).
  split; [exact Hret |].
  split; [exact Hcache |].
  etrans; [exact (Hnext [0]%nat) | vm_compute; reflexivity].
Defined.

(** C9 as stated fails in one point: the error that comes back is not the
    error of the provider itself.  The provider aws returns "token expired";
    [FindActiveAccounts] returns that error wrapped as "in provider: aws". *)
Lemma FindActiveAccounts_error_counterexample :
  ¬ (∀ (order : list nat) (st : @memory nat) (p : Provider.t nat) (name account : string)
       (err : error) (w' : nat),
       cachedActiveAccounts st = None →
       AllProviderNames flaky_registry order = [name] →
       flaky_registry !! name = Some p →
       Provider.FindActiveAccount p (world st) = ((account, Some err), w') →
       (FindActiveAccounts flaky_registry order st).1 = (None, Some err)).
Proof.
  intros Hclaim.
  specialize (Hclaim [0]%nat
                {| heap := []; cachedActiveAccounts := None; world := 0%nat |}
                (flaky_provider "aws" "alice") "aws" "alice" (ErrorNew "token expired")
                1%nat eq_refl eq_refl eq_refl eq_refl).
  vm_compute in Hclaim. discriminate Hclaim.
Qed.

(** * More of the package *)

(** ** The projections of a List *)

(** A loop that writes [f x] at the position of every [x] of the range
    fills the slice from the left. *)
Lemma fill_loop {A B : Type} (f : A → B) (l : list A) :
  ∀ (i : nat) (ret : list B),
    length ret = (i + length l)%nat →
    (foldl (λ st x, (S st.1, <[st.1 := f x]> st.2)) (i, ret) l).2
    = take i ret ++ (f <$> l).
Proof.
  induction l as [|x l IH]; intros i ret Hlen; cbn [foldl fst snd fmap list_fmap length] in *.
  - rewrite app_nil_r, take_ge by lia. reflexivity.
  - rewrite IH by (rewrite length_insert; lia).
    assert (Hi : (i < length ret)%nat) by lia.
    rewrite (take_S_r _ i (f x)) by (by apply list_lookup_insert_eq).
    rewrite take_insert_ge by lia. by rewrite <- app_assoc.
Qed.

(** X1. [Names] returns a slice as long as the collection whose element at
    every position is the name of the VM at that position. *)
Theorem Names_positional (vl : List) :
  length (Names vl) = length vl
  ∧ ∀ i : nat, Names vl !! i = VM.Name <$> vl !! i.
Proof.
  assert (Heq : Names vl = VM.Name <$> vl).
  { unfold Names. rewrite fill_loop by (rewrite length_replicate; lia). reflexivity. }
  rewrite Heq. split; [apply length_fmap | intros i; apply list_lookup_fmap].
Qed.

(** X2. [ProviderIDs] returns a slice as long as the collection whose
    element at every position is the provider id of the VM at that
    position. *)
Theorem ProviderIDs_positional (vl : List) :
  length (ProviderIDs vl) = length vl
  ∧ ∀ i : nat, ProviderIDs vl !! i = VM.ProviderID <$> vl !! i.
Proof.
  assert (Heq : ProviderIDs vl = VM.ProviderID <$> vl).
  { unfold ProviderIDs. rewrite fill_loop by (rewrite length_replicate; lia). reflexivity. }
  rewrite Heq. split; [apply length_fmap | intros i; apply list_lookup_fmap].
Qed.

(** ** Sorting a List: Swap and Less *)

Lemma index_Some {A : Type} (l : list A) (i : Z) (x : A) :
  index l i = Some x ↔ 0 <= i ∧ l !! Z.to_nat i = Some x.
Proof.
  unfold index. destruct (0 <=? i) eqn:Hi.
  - apply Z.leb_le in Hi. split; [auto | by intros [_ ?]].
  - apply Z.leb_gt in Hi. split; [discriminate | intros [? _]; lia].
Qed.

Lemma index_None {A : Type} (l : list A) (i : Z) :
  index l i = None ↔ ¬ (0 <= i < Z.of_nat (length l)).
Proof.
  unfold index. destruct (0 <=? i) eqn:Hi.
  - apply Z.leb_le in Hi. rewrite lookup_ge_None. lia.
  - apply Z.leb_gt in Hi. split; [lia | reflexivity].
Qed.

Lemma index_in_range {A : Type} (l : list A) (i : Z) :
  0 <= i < Z.of_nat (length l) → ∃ x, index l i = Some x.
Proof.
  intros Hi. destruct (index l i) as [x|] eqn:Hx; [eauto |].
  apply index_None in Hx. contradiction.
Qed.

Lemma insert_head_Permutation {A : Type} (l : list A) :
  ∀ (j : nat) (x b : A), l !! j = Some b → b :: <[j := x]> l ≡ₚ x :: l.
Proof.
  induction l as [|y l IH]; intros j x b Hj; [by rewrite lookup_nil in Hj |].
  destruct j as [|j]; cbn in *.
  - injection Hj as ->. apply perm_swap.
  - rewrite perm_swap, (IH j x b Hj). apply perm_swap.
Qed.

(** Writing each of two elements of a list at the place of the other gives
    a permutation of the list. *)
Lemma swap_Permutation {A : Type} (l : list A) :
  ∀ (i j : nat) (a b : A),
    l !! i = Some a → l !! j = Some b → <[j := a]> (<[i := b]> l) ≡ₚ l.
Proof.
  induction l as [|x l IH]; intros i j a b Hi Hj; [by rewrite lookup_nil in Hi |].
  destruct i as [|i], j as [|j]; cbn in *.
  - injection Hi as ->. reflexivity.
  - injection Hi as ->. by apply insert_head_Permutation.
  - injection Hj as ->. by apply insert_head_Permutation.
  - apply perm_skip. by apply IH.
Qed.

(** X3. [Swap] with both indices inside the collection exchanges the two
    elements, leaves every other position as it is and keeps the collection
    a permutation of what it was; with an index outside it panics, and only
    then. *)
Theorem Swap_exchanges (vl : List) (i j : Z) :
  (0 <= i < Len vl → 0 <= j < Len vl →
   ∃ vl' : List,
     Swap vl i j = Some vl'
     ∧ length vl' = length vl
     ∧ index vl' i = index vl j
     ∧ index vl' j = index vl i
     ∧ (∀ k : Z, k ≠ i → k ≠ j → index vl' k = index vl k)
     ∧ vl' ≡ₚ vl)
  ∧ (Swap vl i j = None ↔ ¬ (0 <= i < Len vl ∧ 0 <= j < Len vl)).
Proof.
  unfold Len. split.
  - intros Hi Hj.
    destruct (index_in_range vl i Hi) as [a Ha], (index_in_range vl j Hj) as [b Hb].
    unfold Swap. rewrite Ha, Hb. eexists. split; [reflexivity |].
    apply index_Some in Ha as [_ Ha], Hb as [_ Hb].
    split; [by rewrite !length_insert |].
    split.
    { apply index_Some. split; [lia |].
      destruct (decide (Z.to_nat i = Z.to_nat j)) as [Heq | Hne].
      - rewrite Heq in *. rewrite list_lookup_insert_eq by (rewrite length_insert; lia).
        congruence.
      - rewrite list_lookup_insert_ne by congruence.
        apply list_lookup_insert_eq. lia. }
    split.
    { apply index_Some. split; [lia |].
      apply list_lookup_insert_eq. rewrite length_insert. lia. }
    split.
    { intros k Hki Hkj. unfold index. destruct (0 <=? k) eqn:Hk; [| reflexivity].
      apply Z.leb_le in Hk.
      rewrite !list_lookup_insert_ne by lia. reflexivity. }
    by apply swap_Permutation.
  - unfold Swap. destruct (index vl i) as [a|] eqn:Ha.
    + destruct (index vl j) as [b|] eqn:Hb.
      * apply index_Some in Ha as [? Ha%lookup_lt_Some], Hb as [? Hb%lookup_lt_Some].
        split; [discriminate | lia].
      * apply index_None in Hb. split; [tauto | reflexivity].
    + apply index_None in Ha. split; [tauto | reflexivity].
Qed.

(** The first and the third of three VMs change places. *)
Lemma Swap_exchanges_witness :
  let vl := [vm_in "c" "aws" ""; vm_in "b" "aws" ""; vm_in "a" "aws" ""] in
  0 <= 0 < Len vl
  ∧ 0 <= 2 < Len vl
  ∧ ∃ vl' : List,
      Swap vl 0 2 = Some vl'
      ∧ length vl' = length vl
      ∧ index vl' 0 = index vl 2
      ∧ index vl' 2 = index vl 0
      ∧ (∀ k : Z, k ≠ 0 → k ≠ 2 → index vl' k = index vl k)
      ∧ vl' ≡ₚ vl.
Proof.
  intros vl.
  assert (H0 : 0 <= 0 < Len vl) by (unfold Len; cbn; lia).
  assert (H2 : 0 <= 2 < Len vl) by (unfold Len; cbn; lia).
  split; [exact H0 |]. split; [exact H2 |].
  exact (proj1 (Swap_exchanges vl 0 2) H0 H2).
Defined.

(** X4. [Swap] undoes itself, and the order of its two indices does not
    matter. *)
Theorem Swap_involutive (vl vl' : List) (i j : Z) :
  Swap vl i j = Some vl' →
  Swap vl' i j = Some vl ∧ Swap vl j i = Some vl'.
Proof.
  unfold Swap.
  destruct (index vl i) as [a|] eqn:Ha; [| discriminate].
  destruct (index vl j) as [b|] eqn:Hb; [| discriminate].
  intros [= <-].
  pose proof Ha as [Hi Ha']%index_Some. pose proof Hb as [Hj Hb']%index_Some.
  pose proof (lookup_lt_Some _ _ _ Ha') as Hil. pose proof (lookup_lt_Some _ _ _ Hb') as Hjl.
  assert (Hxi : index (<[Z.to_nat j := a]> (<[Z.to_nat i := b]> vl)) i = Some b).
  { apply index_Some. split; [exact Hi |].
    destruct (decide (Z.to_nat i = Z.to_nat j)) as [Heq | Hne].
    - rewrite Heq in *. rewrite list_lookup_insert_eq by (rewrite length_insert; lia).
      congruence.
    - rewrite list_lookup_insert_ne by congruence. by apply list_lookup_insert_eq. }
  assert (Hxj : index (<[Z.to_nat j := a]> (<[Z.to_nat i := b]> vl)) j = Some a).
  { apply index_Some. split; [exact Hj |].
    apply list_lookup_insert_eq. rewrite length_insert. lia. }
  rewrite Hxi, Hxj. split; f_equal.
  - apply list_eq. intros k.
    destruct (decide (k = Z.to_nat j)) as [-> | Hkj].
    + rewrite list_lookup_insert_eq by (rewrite !length_insert; lia). by rewrite Hb'.
    + rewrite list_lookup_insert_ne by congruence.
      destruct (decide (k = Z.to_nat i)) as [-> | Hki].
      * rewrite list_lookup_insert_eq by (rewrite !length_insert; lia). by rewrite Ha'.
      * by rewrite !list_lookup_insert_ne by congruence.
  - apply list_eq. intros k.
    destruct (decide (k = Z.to_nat i)) as [-> | Hki].
    + rewrite list_lookup_insert_eq by (rewrite length_insert; lia).
      destruct (decide (Z.to_nat i = Z.to_nat j)) as [Heq | Hne].
      * rewrite Heq in *. rewrite list_lookup_insert_eq by (rewrite length_insert; lia).
        congruence.
      * rewrite list_lookup_insert_ne by congruence.
        by rewrite list_lookup_insert_eq by lia.
    + rewrite list_lookup_insert_ne by congruence.
      destruct (decide (k = Z.to_nat j)) as [-> | Hkj].
      * rewrite list_lookup_insert_eq by lia.
        by rewrite list_lookup_insert_eq by (rewrite length_insert; lia).
      * by rewrite !list_lookup_insert_ne by congruence.
Qed.

(** Swapping back. *)
Lemma Swap_involutive_witness :
  Swap [vm_in "a" "aws" ""; vm_in "b" "aws" ""; vm_in "c" "aws" ""] 0 2
  = Some [vm_in "c" "aws" ""; vm_in "b" "aws" ""; vm_in "a" "aws" ""]
  ∧ Swap [vm_in "c" "aws" ""; vm_in "b" "aws" ""; vm_in "a" "aws" ""] 2 0
    = Some [vm_in "a" "aws" ""; vm_in "b" "aws" ""; vm_in "c" "aws" ""].
Proof.
  apply (Swap_involutive
           [vm_in "c" "aws" ""; vm_in "b" "aws" ""; vm_in "a" "aws" ""]
           [vm_in "a" "aws" ""; vm_in "b" "aws" ""; vm_in "c" "aws" ""] 0 2).
  reflexivity.
Defined.

Lemma string_compare_refl (s : string) : String.compare s s = Eq.
Proof.
  pose proof (String.compare_antisym s s) as H.
  destruct (String.compare s s); [reflexivity | discriminate | discriminate].
Qed.

Lemma string_ltb_leb (a b : string) :
  String.ltb a b = true ↔ String.leb a b = true ∧ a ≠ b.
Proof.
  unfold String.ltb, String.leb. split.
  - destruct (String.compare a b) eqn:Hc; try discriminate.
    intros _. split; [reflexivity |]. intros ->. rewrite string_compare_refl in Hc.
    discriminate.
  - intros [Hle Hne]. destruct (String.compare a b) eqn:Hc; try discriminate; [| reflexivity].
    by apply String.compare_eq_iff in Hc.
Qed.

Lemma string_ltb_trans (a b c : string) :
  String.ltb a b = true → String.ltb b c = true → String.ltb a c = true.
Proof.
  rewrite !string_ltb_leb. intros [Hab Hne1] [Hbc Hne2].
  assert (Hac : String.le a c).
  { transitivity b; unfold String.le; [by rewrite Hab | by rewrite Hbc]. }
  split; [unfold String.le in Hac; by destruct (String.leb a c) |].
  intros ->. apply Hne1.
  apply (anti_symm String.le); unfold String.le; [by rewrite Hab | by rewrite Hbc].
Qed.

Lemma string_ltb_asym (a b : string) :
  String.ltb a b = true → String.ltb b a = false.
Proof.
  unfold String.ltb. rewrite (String.compare_antisym a b).
  by destruct (String.compare b a).
Qed.

Lemma string_ltb_total (a b : string) :
  String.ltb a b = false → String.ltb b a = false → a = b.
Proof.
  unfold String.ltb. rewrite (String.compare_antisym a b).
  destruct (String.compare b a) eqn:Hc; try discriminate.
  intros _ _. symmetry. by apply String.compare_eq_iff.
Qed.

(** X5. On the positions of a collection [Less] is a strict order by name,
    as sorting needs it: no VM is before itself, two VMs are never each
    before the other, before is transitive, and two VMs of which neither is
    before the other have the same name.  With an index outside the
    collection [Less] panics, and only then. *)
Theorem Less_strict_order (vl : List) :
  (∀ (i : Z) (r : bool), Less vl i i = Some r → r = false)
  ∧ (∀ i j : Z, Less vl i j = Some true → Less vl j i = Some false)
  ∧ (∀ i j k : Z, Less vl i j = Some true → Less vl j k = Some true →
       Less vl i k = Some true)
  ∧ (∀ i j : Z, Less vl i j = Some false → Less vl j i = Some false →
       VM.Name <$> index vl i = VM.Name <$> index vl j)
  ∧ (∀ i j : Z, Less vl i j = None ↔ ¬ (0 <= i < Len vl ∧ 0 <= j < Len vl)).
Proof.
  unfold Less, Len. repeat split.
  - intros i r. destruct (index vl i) as [a|]; [| discriminate].
    intros [= <-]. unfold String.ltb. by rewrite string_compare_refl.
  - intros i j. destruct (index vl i) as [a|], (index vl j) as [b|]; try discriminate.
    intros [= H]. by rewrite (string_ltb_asym _ _ H).
  - intros i j k.
    destruct (index vl i) as [a|], (index vl j) as [b|]; try discriminate.
    destruct (index vl k) as [c|]; [| discriminate].
    intros [= Hab] [= Hbc]. by rewrite (string_ltb_trans _ _ _ Hab Hbc).
  - intros i j. destruct (index vl i) as [a|], (index vl j) as [b|]; try discriminate.
    intros [= Hab] [= Hba]. cbn. f_equal. by apply string_ltb_total.
  - destruct (index vl i) as [a|] eqn:Ha.
    + destruct (index vl j) as [b|] eqn:Hb; [discriminate |].
      intros _. apply index_None in Hb. tauto.
    + intros _. apply index_None in Ha. tauto.
  - intros Hout. destruct (index vl i) as [a|] eqn:Ha; [| reflexivity].
    destruct (index vl j) as [b|] eqn:Hb; [| reflexivity].
    apply index_Some in Ha as [? Ha%lookup_lt_Some], Hb as [? Hb%lookup_lt_Some]. lia.
Qed.

(** Names in order, and an index past the end. *)
Lemma Less_strict_order_witness :
  let vl := [vm_in "a" "aws" ""; vm_in "b" "aws" ""; vm_in "c" "aws" ""] in
  Less vl 0 2 = Some true ∧ Less vl 2 0 = Some false ∧ Less vl 0 3 = None.
Proof.
  intros vl.
  pose proof (Less_strict_order vl) as (_ & Hasym & Htrans & _ & Hnone).
  assert (H02 : Less vl 0 2 = Some true).
  { apply (Htrans 0 1 2); reflexivity. }
  split; [exact H02 |].
  split; [by apply Hasym |].
  apply Hnone. unfold Len. cbn. lia.
Defined.

(** ** The names of the registry *)

Section RegistryFacts.

Context {W : Type}.
Variable Providers : gmap string (Provider.t W).

Lemma AllProviderNames_Permutation (order : list nat) :
  order ≡ₚ seq 0 (size Providers) →
  AllProviderNames Providers order ≡ₚ (map_to_list Providers).*1.
Proof.
  intros Horder. unfold AllProviderNames, range_map.
  rewrite <- (length_map_to_list Providers) in Horder.
  by rewrite (pick_Permutation order _ Horder).
Qed.

(** X6. When the range visits every entry of the registry once,
    [AllProviderNames] returns each registered name exactly once and no
    other name. *)
Theorem AllProviderNames_keys (order : list nat) :
  order ≡ₚ seq 0 (size Providers) →
  NoDup (AllProviderNames Providers order)
  ∧ length (AllProviderNames Providers order) = size Providers
  ∧ ∀ n : string, n ∈ AllProviderNames Providers order ↔ is_Some (Providers !! n).
Proof.
  intros Horder. pose proof (AllProviderNames_Permutation order Horder) as Hperm.
  split; [rewrite Hperm; apply NoDup_fst_map_to_list |].
  split; [rewrite Hperm, length_fmap; apply length_map_to_list |].
  intros n. rewrite Hperm, list_elem_of_fmap. split.
  - intros ([n' p] & -> & Hin). apply elem_of_map_to_list in Hin. eauto.
  - intros [p Hp]. exists (n, p). split; [reflexivity | by apply elem_of_map_to_list].
Qed.

(** X7. When [ProvidersSequential] returns an error, the list of names
    splits at a name before which every invocation succeeded and whose own
    invocation returned that error and left that state. *)
Theorem ProvidersSequential_error_inv {S : Type}
    (action : Provider.t W → S → option error * S) (named : list string) :
  ∀ (s s' : S) (err : error),
    ProvidersSequential Providers named action s = (Some err, s') →
    ∃ (pre post : list string) (name : string) (s1 : S),
      named = pre ++ name :: post
      ∧ all_succeed Providers action pre s s1
      ∧ ForProvider Providers name action s1 = (Some err, s').
Proof.
  induction named as [|name named IH]; intros s s' err; cbn [ProvidersSequential];
    [discriminate |].
  destruct (ForProvider Providers name action s) as [[e|] s1] eqn:Hfp.
  - intros [= <- <-]. exists [], named, name, s.
    split; [reflexivity |]. split; [constructor | exact Hfp].
  - intros Hrest. destruct (IH s1 s' err Hrest) as (pre & post & n & s2 & -> & Hpre & Hfail).
    exists (name :: pre), post, n, s2.
    split; [reflexivity |]. split; [by econstructor | exact Hfail].
Qed.


(** X9. When the invocations for a list of names all succeed one after the
    other, [ProvidersParallel] under the schedule that follows the launch
    order returns success with the same state. *)
Theorem ProvidersParallel_launch_order {S : Type} (named : list string)
    (action : Provider.t W → S → option error * S) (s s' : S) :
  all_succeed Providers action named s s' →
  ProvidersParallel Providers (seq 0 (length named)) named action s = (None, s').
Proof.
  intros Hall. rewrite ProvidersParallel_run.
  pose proof (pick_seq named []) as Hpick. cbn [length app] in Hpick. rewrite Hpick.
  clear Hpick. induction Hall as [s | name named s s1 s2 Hfp _ IH]; [reflexivity |].
  cbn [fmap list_fmap run_each]. rewrite Hfp.
  change (list_fmap _ _ ?f named) with (f <$> named).
  destruct (run_each _ s1) as [rs s3]. cbn [fst snd] in *.
  rewrite first_error_cons. exact IH.
Qed.

End RegistryFacts.

(** The two providers of the sample registry, in either order. *)
Lemma AllProviderNames_keys_witness :
  NoDup (AllProviderNames sample_registry [1; 0]%nat)
  ∧ length (AllProviderNames sample_registry [1; 0]%nat) = size sample_registry
  ∧ ∀ n : string,
      n ∈ AllProviderNames sample_registry [1; 0]%nat ↔ is_Some (sample_registry !! n).
Proof.
  apply (AllProviderNames_keys sample_registry [1; 0]%nat).
  apply (bool_decide_unpack _). vm_compute. exact I.
Defined.

(** The run over aws, gce, azure that fails at gce splits after aws. *)
Lemma ProvidersSequential_error_inv_witness :
  ∃ (pre post : list string) (name : string) (s1 : nat),
    ["aws"; "gce"; "azure"] = pre ++ name :: post
    ∧ all_succeed sample_registry (sample_action "gce") pre 0%nat s1
    ∧ ForProvider sample_registry name (sample_action "gce") s1
      = (Some (ErrorWrap (ErrorNew "failed") "in provider: gce"), 2%nat).
Proof.
  apply (ProvidersSequential_error_inv sample_registry (sample_action "gce")
           ["aws"; "gce"; "azure"] 0%nat 2%nat).
  reflexivity.
Defined.


(** Two registered names, no failure. *)
Lemma ProvidersParallel_launch_order_witness :
  ProvidersParallel sample_registry (seq 0 2) ["aws"; "gce"] (sample_action "none") 0%nat
  = (None, 2%nat).
Proof.
  apply (ProvidersParallel_launch_order sample_registry ["aws"; "gce"]
           (sample_action "none") 0%nat 2%nat).
  apply (all_succeed_cons sample_registry _ "aws" ["gce"] 0%nat 1%nat 2%nat);
    [reflexivity |].
  apply (all_succeed_cons sample_registry _ "gce" [] 1%nat 2%nat 2%nat);
    [reflexivity | constructor].
Defined.

(** ** Locality: zones with the letter right after the region *)

Local Open Scope string_scope.

(** X10. For a VM that is not local and whose zone is a prefix followed
    directly by one lower-case letter, as in "us-east-1a", the region of
    [Locality] is the prefix, provided the prefix is not empty, does not end
    in a hyphen and holds no line feed. *)
Theorem Locality_letter_suffix (Local : string) (vm : VM.t)
    (prefix : string) (x l : ascii) :
  VM.IsLocal Local vm = false →
  VM.Zone vm = prefix ++ String l "" →
  last_char prefix = Some x →
  x ≠ "-"%char →
  has_newline prefix = false →
  lower l = true →
  VM.Locality Local vm
  = Return ("cloud=" ++ VM.Provider vm ++ ",region=" ++ prefix
            ++ ",zone=" ++ VM.Zone vm).
Proof.
  intros Hloc Hzone Hlast Hx Hnl Hl.
  destruct (last_char_split prefix x Hlast Hnl) as (u & Hu & Hall).
  assert (Htail : region_tail [x; l] = true).
  { apply region_tail_spec. exists x, l. auto. }
  assert (Hs : regexp.search regionRE (list_ascii_of_string (VM.Zone vm))
               = Some [Some (list_ascii_of_string (VM.Zone vm));
                       Some (list_ascii_of_string prefix)]).
  { rewrite search_regionRE.
    replace (list_ascii_of_string (VM.Zone vm)) with (u ++ x :: [l])%list.
    - rewrite (region_at_prefix u x _ Hall Htail). by rewrite Hu.
    - rewrite Hzone, list_ascii_of_string_app, Hu, <- app_assoc. reflexivity. }
  rewrite (Locality_of_match Local vm _ _ Hloc Hs).
  by rewrite string_of_list_ascii_of_string.
Qed.

(** A zone of AWS. *)
Lemma Locality_letter_suffix_witness :
  VM.Locality "local" (vm_in "c-1" "aws" "us-east-1a")
  = Return "cloud=aws,region=us-east-1,zone=us-east-1a".
Proof.
  apply (Locality_letter_suffix "local" (vm_in "c-1" "aws" "us-east-1a")
           "us-east-1" "1"%char "a"%char);
    first [reflexivity | discriminate].
Defined.

Lemma region_at_shape (s : list ascii) :
  ∀ g, region_at s = Some g →
       ∃ (u : list ascii) (x : ascii) (t : list ascii),
         s = (u ++ x :: t)%list ∧ g = (u ++ [x])%list ∧ region_tail (x :: t) = true.
Proof.
  induction s as [|c s IH]; intros g; [discriminate |].
  cbn [region_at]. destruct (region_tail (c :: s)) eqn:Htail.
  - intros [= <-]. exists [], c, s. auto.
  - destruct (Ascii.eqb c regexp.newline); [discriminate |].
    destruct (region_at s) as [g'|]; [| discriminate].
    intros [= <-]. destruct (IH g' eq_refl) as (u & x & t & -> & -> & Ht).
    exists (c :: u), x, t. auto.
Qed.

(** A match starts at the front of the text or right after a line feed. *)
Lemma search_regionRE_result (s : list ascii) :
  ∀ cs, regexp.search regionRE s = Some cs →
        ∃ (w m g : list ascii),
          s = (w ++ m)%list ∧ cs = [Some m; Some g] ∧ region_at m = Some g
          ∧ (w = [] ∨ last w = Some regexp.newline).
Proof.
  induction s as [|c s IH]; intros cs; rewrite search_regionRE.
  - cbn [region_at]. discriminate.
  - destruct (region_at (c :: s)) as [g|] eqn:Hat.
    + intros [= <-]. exists [], (c :: s), g. auto.
    + intros Hs. destruct (IH cs Hs) as (w & m & g & -> & -> & Hm & Hw).
      exists (c :: w), m, g. split; [reflexivity |]. split; [reflexivity |].
      split; [exact Hm |]. right.
      destruct Hw as [-> | Hw].
      * cbn [app] in Hat. cbn [region_at] in Hat.
        destruct (region_tail (c :: m)); [discriminate |].
        destruct (Ascii.eqb c regexp.newline) eqn:Hc.
        -- apply Ascii.eqb_eq in Hc. by subst c.
        -- rewrite Hm in Hat. discriminate.
      * destruct w as [|c' w]; [discriminate | exact Hw].
Qed.

Lemma last_char_of_list (l : list ascii) :
  last_char (string_of_list_ascii l) = last l.
Proof.
  induction l as [|c l IH]; [reflexivity |].
  destruct l as [|c' l]; [reflexivity |].
  change (string_of_list_ascii (c :: c' :: l))
    with (String c (string_of_list_ascii (c' :: l))).
  change (last (c :: c' :: l)) with (last (c' :: l)). rewrite <- IH. reflexivity.
Qed.

(** X11. Whenever [Locality] returns for a VM that is not local, the region
    is not empty and does not end in a hyphen, and the zone ends in the
    region, an optional hyphen and one lower-case letter; what the zone has
    before the region is nothing, or text up to a line feed. *)
Theorem Locality_region_shape (Local : string) (vm : VM.t) (s : string) :
  VM.IsLocal Local vm = false →
  VM.Locality Local vm = Return s →
  ∃ (skipped region : string) (x l : ascii),
    s = "cloud=" ++ VM.Provider vm ++ ",region=" ++ region ++ ",zone=" ++ VM.Zone vm
    ∧ (VM.Zone vm = skipped ++ region ++ String l ""
       ∨ VM.Zone vm = skipped ++ region ++ String "-" (String l ""))
    ∧ last_char region = Some x
    ∧ x ≠ "-"%char
    ∧ lower l = true
    ∧ (skipped = "" ∨ last_char skipped = Some regexp.newline).
Proof.
  intros Hloc Hret.
  destruct (regexp.search regionRE (list_ascii_of_string (VM.Zone vm))) as [cs|] eqn:Hs.
  - destruct (search_regionRE_result _ _ Hs) as (w & m & g & Hz & -> & Hm & Hw).
    rewrite (Locality_of_match Local vm m g Hloc Hs) in Hret. injection Hret as <-.
    destruct (region_at_shape _ _ Hm) as (u & x & t & -> & -> & Ht).
    apply region_tail_spec in Ht as (x' & l & Ht & Hx & Hl).
    assert (Hzone : VM.Zone vm
                    = string_of_list_ascii w ++ string_of_list_ascii (u ++ [x])%list
                      ++ string_of_list_ascii t).
    { rewrite <- (string_of_list_ascii_of_string (VM.Zone vm)), Hz.
      rewrite !string_of_list_ascii_app. cbn. by rewrite append_assoc. }
    assert (Hxx : x = x') by (destruct Ht as [Ht | Ht]; by injection Ht).
    subst x'.
    exists (string_of_list_ascii w), (string_of_list_ascii (u ++ [x])%list), x, l.
    split; [reflexivity |].
    split.
    { rewrite Hzone. destruct Ht as [Ht | Ht]; injection Ht as ->; [left | right];
        reflexivity. }
    split; [rewrite last_char_of_list; apply last_snoc |].
    split; [exact Hx |].
    split; [exact Hl |].
    destruct Hw as [-> | Hw]; [by left | right].
    by rewrite last_char_of_list.
  - rewrite (Locality_of_no_match Local vm Hloc Hs) in Hret. discriminate.
Qed.

(** The region of a zone of GCE. *)
Lemma Locality_region_shape_witness :
  ∃ (skipped region : string) (x l : ascii),
    "cloud=gce,region=us-east1,zone=us-east1-b"
    = "cloud=" ++ "gce" ++ ",region=" ++ region ++ ",zone=" ++ "us-east1-b"
    ∧ ("us-east1-b" = skipped ++ region ++ String l ""
       ∨ "us-east1-b" = skipped ++ region ++ String "-" (String l ""))
    ∧ last_char region = Some x
    ∧ x ≠ "-"%char
    ∧ lower l = true
    ∧ (skipped = "" ∨ last_char skipped = Some regexp.newline).
Proof.
  apply (Locality_region_shape "local" (vm_in "c-1" "gce" "us-east1-b")
           "cloud=gce,region=us-east1,zone=us-east1-b");
    reflexivity.
Defined.

(** ** Name: different nodes, different names *)

Local Open Scope Z_scope.

Lemma fmtInteger_shape (idx : Z) :
  - 2 ^ 63 <= idx < 2 ^ 63 →
  ∃ ds : string,
    fmt.fmtInteger idx (Some 4%nat) = (if idx <? 0 then "-" else "") ++ ds
    ∧ all_digits ds = true
    ∧ decimal_value 0 ds = Z.abs idx.
Proof.
  intros Hidx. unfold fmt.fmtInteger.
  destruct (int64_magnitude idx Hidx) as [Hneg Hmag].
  rewrite Hneg.
  assert (Hu : (if idx <? 0 then (- (idx mod 2 ^ 64)) mod 2 ^ 64 else idx mod 2 ^ 64)
               = Z.abs idx) by exact Hmag.
  rewrite Hu. clear Hu Hmag Hneg.
  destruct (fmt_digits_spec 19 (Z.abs idx) "") as (ds & Heq & Hall & Hval & _).
  { split; [lia |]. change (10 ^ Z.of_nat 20) with 100000000000000000000. lia. }
  rewrite append_nil_r in Heq. rewrite Heq.
  destruct (zero_pad_spec (4 - String.length ds) ds) as (zs & Hz & _ & Hzall & Hzval).
  rewrite Hz. exists (zs ++ ds).
  split; [by destruct (idx <? 0) |].
  split; [by rewrite all_digits_app, Hzall, Hall |].
  rewrite Hzval. simpl. rewrite Z.mul_0_r. exact Hval.
Qed.

(** X12. Within one cluster [Name] gives different indices different names:
    two 64-bit indices with the same name are the same index. *)
Theorem Name_injective (cluster : string) (i j : Z) :
  - 2 ^ 63 <= i < 2 ^ 63 →
  - 2 ^ 63 <= j < 2 ^ 63 →
  Name cluster i = Name cluster j →
  i = j.
Proof.
  intros Hi Hj Heq. rewrite !Name_unfold in Heq.
  destruct (fmtInteger_shape i Hi) as (di & Hfi & Hdi & Hvi).
  destruct (fmtInteger_shape j Hj) as (dj & Hfj & Hdj & Hvj).
  rewrite Hfi, Hfj in Heq. clear Hfi Hfj.
  apply (inj (String.append cluster)) in Heq.
  destruct (i <? 0) eqn:Hni, (j <? 0) eqn:Hnj; cbn [String.append] in Heq;
    injection Heq as Heq.
  - subst dj. apply Z.ltb_lt in Hni, Hnj. lia.
  - subst dj. cbn [all_digits] in Hdj. discriminate.
  - subst di. cbn [all_digits] in Hdi. discriminate.
  - subst dj. apply Z.ltb_ge in Hni, Hnj. lia.
Qed.

(** Nodes 7 and 12 of one cluster. *)
Lemma Name_injective_witness :
  Name "foo" 7 ≠ Name "foo" 12.
Proof.
  intros Heq.
  assert (H : 7 = 12); [| discriminate H].
  apply (Name_injective "foo" 7 12); [lia | lia | exact Heq].
Defined.

(** ** The accounts that are kept *)

Local Open Scope list_scope.

Section AccountEntries.

Context {W : Type}.
Variable Providers : gmap string (Provider.t W).

(** An entry as [FindActiveAccounts] writes it: an account that is not
    empty, under the name a registered provider reports. *)
Definition account_entry (k v : string) : Prop :=
  v ≠ ""%string ∧ ∃ (n : string) (p : Provider.t W), Providers !! n = Some p ∧ Provider.Name p = k.

Definition accounts_ok (m : gmap string string) : Prop :=
  ∀ k v, m !! k = Some v → account_entry k v.

Lemma askAccount_ok (source : nat) (n : string) (p : Provider.t W) (st : @memory W) :
  Providers !! n = Some p →
  (source < length (heap st))%nat →
  accounts_ok (map_at source st) →
  accounts_ok (map_at source (askAccount source p st).2).
Proof.
  intros Hp Hlt Hok. unfold askAccount.
  destruct (Provider.FindActiveAccount p (world st)) as [[account [e|]] w];
    cbn -[Nat.ltb]; [exact Hok |].
  destruct (0 <? String.length account)%nat eqn:Hlen; cbn; [| exact Hok].
  unfold map_at at 1. cbn. rewrite list_lookup_insert_eq by exact Hlt. cbn.
  intros k v. destruct (decide (Provider.Name p = k)) as [<- | Hne].
  - rewrite lookup_insert_eq. intros [= <-]. split; [| eauto].
    intros ->. cbn in Hlen. discriminate.
  - rewrite lookup_insert_ne by exact Hne. apply Hok.
Qed.

Lemma ProvidersSequential_askAccount_ok (source : nat) (named : list string) :
  ∀ st : @memory W,
    (source < length (heap st))%nat →
    accounts_ok (map_at source st) →
    accounts_ok
      (map_at source (ProvidersSequential Providers named (askAccount source) st).2).
Proof.
  induction named as [|name named IH]; intros st Hlt Hok; cbn [ProvidersSequential];
    [exact Hok |].
  pose proof (ForProvider_askAccount_frame Providers source name st) as [Hlen _].
  assert (Hstep : accounts_ok
                    (map_at source (ForProvider Providers name (askAccount source) st).2)).
  { unfold ForProvider. destruct (Providers !! name) as [p|] eqn:Hp; [| exact Hok].
    pose proof (askAccount_ok source name p st Hp Hlt Hok) as Hask.
    by destruct (askAccount source p st) as [[e|] st']. }
  destruct (ForProvider Providers name (askAccount source) st) as [[e|] st1];
    [exact Hstep |].
  cbn [snd] in Hlen, Hstep. apply IH; [lia | exact Hstep].
Qed.

(** X13. The mapping a first successful call computes, caches and returns
    a copy of holds no empty account, and each of its keys is the name a
    registered provider reports. *)
Theorem FindActiveAccounts_entries (order : list nat) (st0 st1 : memory) (a : nat) :
  cachedActiveAccounts st0 = None →
  FindActiveAccounts Providers order st0 = ((Some a, None), st1) →
  accounts_ok (map_at a st1)
  ∧ ∀ c, cachedActiveAccounts st1 = Some c → accounts_ok (map_at c st1).
Proof.
  intros Hcache Hcall.
  destruct (FindActiveAccounts_first Providers order st0 st1 a Hcache Hcall)
    as (_ & Hc & Hsame & _ & _).
  assert (Hcached : accounts_ok (map_at (length (heap st0)) st1)).
  { unfold FindActiveAccounts in Hcall. rewrite Hcache in Hcall. cbn [make_map] in Hcall.
    pose proof (ProvidersSequential_askAccount_ok (length (heap st0))
                  (AllProviderNames Providers order)
                  {| heap := heap st0 ++ [∅];
                     cachedActiveAccounts := cachedActiveAccounts st0;
                     world := world st0 |}) as Hok.
    pose proof (ProvidersSequential_askAccount_frame Providers (length (heap st0))
                  (AllProviderNames Providers order)
                  {| heap := heap st0 ++ [∅];
                     cachedActiveAccounts := cachedActiveAccounts st0;
                     world := world st0 |}) as [Hlen _].
    destruct (ProvidersSequential Providers (AllProviderNames Providers order)
                (askAccount (length (heap st0))) _) as [[e|] st']; [discriminate |].
    cbn [snd heap] in Hok, Hlen. rewrite length_app in Hlen. cbn [length] in Hlen.
    unfold returnCopy, make_map in Hcall. injection Hcall as _ <-.
    unfold map_at in *. cbn [heap] in *.
    rewrite lookup_app_l by lia. apply Hok.
    - rewrite length_app. cbn. lia.
    - rewrite lookup_app_r, Nat.sub_diag by lia. cbn. intros k v.
      by rewrite lookup_empty. }
  split.
  - unfold map_at in *. by rewrite Hsame.
  - intros c Hc'. rewrite Hc in Hc'. by injection Hc' as <-.
Qed.

End AccountEntries.

(** The accounts of the sample registry. *)
Lemma FindActiveAccounts_entries_witness :
  let st0 : @memory nat := {| heap := []; cachedActiveAccounts := None; world := 0%nat |} in
  let st1 := (FindActiveAccounts sample_registry [0; 1]%nat st0).2 in
  accounts_ok sample_registry (map_at 1%nat st1)
  ∧ ∀ c, cachedActiveAccounts st1 = Some c → accounts_ok sample_registry (map_at c st1).
Proof.
  intros st0 st1.
  apply (FindActiveAccounts_entries sample_registry [0; 1]%nat st0 st1 1%nat eq_refl).
  vm_compute. reflexivity.
Defined.

(** ** FanOut when every provider is known *)

Lemma run_each_all_succeed {S : Type} (fs : list (S → option error * S)) :
  Forall (λ f, ∀ s, (f s).1 = None) fs →
  ∀ s, first_error (run_each fs s).1 = None.
Proof.
  induction 1 as [|f fs Hf _ IH]; intros s; [reflexivity |].
  cbn [run_each]. specialize (Hf s). destruct (f s) as [r s1]. cbn in Hf. subst r.
  specialize (IH s1). destruct (run_each fs s1) as [rs s2]. cbn [fst] in *.
  by rewrite first_error_cons.
Qed.

Section FanOutKnown.

Context {W : Type}.
Variable Providers : gmap string (Provider.t W).

Lemma omap_delivery_known (es : list (string * List)) :
  Forall (λ e, is_Some (Providers !! e.1)) es →
  (omap (delivery Providers) es).*2 = es.*2
  ∧ length (omap (delivery Providers) es) = length es.
Proof.
  induction 1 as [|e es [p Hp] _ [IH1 IH2]]; [done |].
  assert (Hd : delivery Providers e = Some (p, e.2)) by (unfold delivery; by rewrite Hp).
  cbn [omap list_omap]. rewrite Hd.
  cbn [fmap list_fmap length snd].
  split; [f_equal; exact IH1 | f_equal; exact IH2].
Qed.

(** X14. When the provider of every VM is registered and the action never
    fails, [FanOut] returns success under every order of the loop and every
    schedule, and the action has been invoked once for each provider of the
    collection, with all the VMs of that provider: the collections handed
    over hold every VM as often as the input does. *)
Theorem FanOut_all_registered {S : Type} (order sched : list nat) (vl : List)
    (action : Provider.t W → List → S → option error * S) (s : S) :
  order ≡ₚ seq 0 (size (collate vl)) →
  sched ≡ₚ seq 0 (size (collate vl)) →
  (∀ vm, vm ∈ vl → is_Some (Providers !! VM.Provider vm)) →
  (∀ p v s0, (action p v s0).1 = None) →
  ∃ (s' : S) (log : list (Provider.t W * List)),
    FanOut Providers order sched vl (traced_list action) (s, []) = (None, (s', log))
    ∧ FanOut Providers order sched vl action s = (None, s')
    ∧ length log = size (collate vl)
    ∧ concat log.*2 ≡ₚ vl
    ∧ ∀ p v, (p, v) ∈ log →
        ∃ n, Providers !! n = Some p ∧ v = filter (λ vm, VM.Provider vm = n) vl ∧ v ≠ [].
Proof.
  intros Horder Hsched Hreg Hok.
  remember (pick sched (range_map order (collate vl))) as ran eqn:Hdef.
  assert (Hran : ran ≡ₚ map_to_list (collate vl)) by (subst ran; by apply ran_Permutation).
  assert (Hknown : Forall (λ e : string * List, is_Some (Providers !! e.1)) ran).
  { rewrite Hran. apply Forall_forall. intros [n v] Hin.
    apply elem_of_map_to_list in Hin.
    assert (Hn : n ∈ VM.Provider <$> vl) by (apply collate_is_Some; eauto).
    apply list_elem_of_fmap in Hn as (vm & -> & Hvm). by apply Hreg. }
  assert (Hnone : first_error
                    (run_each ((λ e, fanOutTask Providers action e.1 e.2) <$> ran) s).1
                  = None).
  { apply run_each_all_succeed. apply Forall_fmap.
    eapply Forall_impl; [exact Hknown |].
    intros [n v] [p Hp] s0. cbn. by rewrite (fanOutTask_known Providers action n p v s0 Hp). }
  destruct (omap_delivery_known ran Hknown) as [Hsnd Hlen].
  exists (run_each ((λ e, fanOutTask Providers action e.1 e.2) <$> ran) s).2,
         (omap (delivery Providers) ran).
  split.
  { rewrite FanOut_run, run_each_fanOut_traced, <- Hdef. cbn [fst snd app].
    by rewrite Hnone. }
  split; [by rewrite FanOut_run, <- Hdef, Hnone |].
  split; [rewrite Hlen, Hran; apply length_map_to_list |].
  split; [rewrite Hsnd, Hran; apply collate_Permutation |].
  intros p v Hin. apply list_elem_of_omap in Hin as ([n v'] & Hin & Hd).
  unfold delivery in Hd. cbn in Hd.
  destruct (Providers !! n) as [p'|] eqn:Hp; [| discriminate].
  injection Hd as <- <-. exists n. split; [exact Hp |].
  rewrite Hran in Hin. apply elem_of_map_to_list in Hin.
  by apply collate_Some in Hin.
Qed.

End FanOutKnown.

(** Three VMs on the two providers of the sample registry. *)
Lemma FanOut_all_registered_witness :
  let vl := [vm_in "c-1" "aws" ""; vm_in "c-2" "gce" ""; vm_in "c-3" "aws" ""] in
  ∃ (s' : nat) (log : list (Provider.t nat * List)),
    FanOut sample_registry [1; 0]%nat [0; 1]%nat vl (traced_list sample_list_action)
      (0%nat, [])
    = (None, (s', log))
    ∧ FanOut sample_registry [1; 0]%nat [0; 1]%nat vl sample_list_action 0%nat = (None, s')
    ∧ length log = size (collate vl)
    ∧ concat log.*2 ≡ₚ vl
    ∧ ∀ p v, (p, v) ∈ log →
        ∃ n, sample_registry !! n = Some p
             ∧ v = filter (λ vm, VM.Provider vm = n) vl ∧ v ≠ [].
Proof.
  intros vl.
  apply (FanOut_all_registered sample_registry [1; 0]%nat [0; 1]%nat vl
           sample_list_action 0%nat).
  - apply (bool_decide_unpack _). vm_compute. exact I.
  - apply (bool_decide_unpack _). vm_compute. exact I.
  - intros vm Hvm. repeat (apply elem_of_cons in Hvm as [-> | Hvm]; [by eexists |]).
    by apply not_elem_of_nil in Hvm.
  - reflexivity.
Defined.

(** ** Where the errors come from *)

Lemma run_each_lookup_inv {S : Type} (fs : list (S → option error * S)) :
  ∀ (s : S) (k : nat) (r : option error),
    (run_each fs s).1 !! k = Some r →
    ∃ (f : S → option error * S) (s0 : S), fs !! k = Some f ∧ (f s0).1 = r.
Proof.
  induction fs as [|g fs IH]; intros s k r; cbn [run_each]; [by rewrite lookup_nil |].
  destruct (g s) as [rg s1] eqn:Hg. specialize (IH s1).
  destruct (run_each fs s1) as [rs s2]. cbn [fst] in *.
  destruct k as [|k]; cbn.
  - intros [= <-]. exists g, s. by rewrite Hg.
  - apply IH.
Qed.

Lemma pick_elem_of {A : Type} (order : list nat) (l : list A) (x : A) :
  x ∈ pick order l → x ∈ l.
Proof.
  unfold pick. rewrite list_elem_of_omap. intros (i & _ & Hi).
  by apply list_elem_of_lookup_2 in Hi.
Qed.

Section ErrorOrigins.

Context {W : Type}.
Variable Providers : gmap string (Provider.t W).

(** X15. Under every order and schedule, an error [FanOut] returns is the
    unknown-provider error for a provider name of the collection that is
    not registered, or an error the action itself returned for a registered
    provider and its group, passed on as it is, without a wrap. *)
Theorem FanOut_error_origin {S : Type} (order sched : list nat) (vl : List)
    (action : Provider.t W → List → S → option error * S) (s s' : S) (err : error) :
  FanOut Providers order sched vl action s = (Some err, s') →
  ∃ n : string,
    n ∈ VM.Provider <$> vl
    ∧ ((Providers !! n = None ∧ err = ErrorNew ("unknown provider name: " ++ n)%string)
       ∨ ∃ (p : Provider.t W) (s0 : S),
           Providers !! n = Some p
           ∧ (action p (filter (λ vm, VM.Provider vm = n) vl) s0).1 = Some err).
Proof.
  rewrite FanOut_run. intros [= Hfirst _].
  apply first_error_Some in Hfirst as (k & Hk & _).
  apply run_each_lookup_inv in Hk as (f & s0 & Hf & Hres).
  rewrite list_lookup_fmap in Hf.
  destruct (pick sched (range_map order (collate vl)) !! k) as [[n v]|] eqn:He;
    [| discriminate].
  injection Hf as <-. cbn [fst snd] in Hres.
  apply list_elem_of_lookup_2, pick_elem_of, pick_elem_of, elem_of_map_to_list in He.
  pose proof (proj1 (collate_Some vl n v) He) as [-> _].
  exists n. split; [apply collate_is_Some; eauto |].
  destruct (Providers !! n) as [p|] eqn:Hp.
  - right. exists p, s0. split; [reflexivity |].
    by rewrite (fanOutTask_known Providers action n p _ s0 Hp) in Hres.
  - left. split; [reflexivity |].
    rewrite (fanOutTask_unknown Providers action n _ s0 Hp) in Hres. by injection Hres.
Qed.

(** X16. Under every schedule, an error [ProvidersParallel] returns is the
    unknown-provider error for a name of the list that is not registered,
    or an error the action returned for a name of the list, wrapped with
    that name. *)
Theorem ProvidersParallel_error_origin {S : Type} (sched : list nat) (named : list string)
    (action : Provider.t W → S → option error * S) (s s' : S) (err : error) :
  ProvidersParallel Providers sched named action s = (Some err, s') →
  ∃ n : string,
    n ∈ named
    ∧ ((Providers !! n = None ∧ err = ErrorNew ("unknown vm provider: " ++ n)%string)
       ∨ ∃ (p : Provider.t W) (s0 : S) (e : error),
           Providers !! n = Some p
           ∧ (action p s0).1 = Some e
           ∧ err = ErrorWrap e ("in provider: " ++ n)%string).
Proof.
  rewrite ProvidersParallel_run. intros [= Hfirst _].
  apply first_error_Some in Hfirst as (k & Hk & _).
  apply run_each_lookup_inv in Hk as (f & s0 & Hf & Hres).
  rewrite list_lookup_fmap in Hf.
  destruct (pick sched named !! k) as [n|] eqn:Hn; [| discriminate].
  injection Hf as <-.
  apply list_elem_of_lookup_2, pick_elem_of in Hn.
  exists n. split; [exact Hn |].
  unfold ForProvider in Hres. destruct (Providers !! n) as [p|] eqn:Hp.
  - right. destruct (action p s0) as [[e|] s1] eqn:Hact; [| discriminate].
    exists p, s0, e. rewrite Hact. cbn [fst] in Hres. injection Hres as <-.
    by rewrite Sprintf_in_provider.
  - left. cbn [fst] in Hres. injection Hres as <-.
    by rewrite Sprintf_unknown_vm_provider.
Qed.

End ErrorOrigins.

(** An action that fails on every provider: the error of [FanOut] is the
    bare error of the action. *)
Definition failing_list_action (p : Provider.t nat) (v : List) (s : nat)
    : option error * nat :=
  (Some (ErrorNew "quota exceeded"), S s).

Lemma FanOut_error_origin_witness :
  let vl := [vm_in "c-1" "aws" ""] in
  FanOut sample_registry [0]%nat [0]%nat vl failing_list_action 0%nat
  = (Some (ErrorNew "quota exceeded"), 1%nat)
  ∧ ∃ n : string,
      n ∈ VM.Provider <$> vl
      ∧ ((sample_registry !! n = None
          ∧ ErrorNew "quota exceeded" = ErrorNew ("unknown provider name: " ++ n)%string)
         ∨ ∃ (p : Provider.t nat) (s0 : nat),
             sample_registry !! n = Some p
             ∧ (failing_list_action p (filter (λ vm, VM.Provider vm = n) vl) s0).1
               = Some (ErrorNew "quota exceeded")).
Proof.
  intros vl.
  assert (Hrun : FanOut sample_registry [0]%nat [0]%nat vl failing_list_action 0%nat
                 = (Some (ErrorNew "quota exceeded"), 1%nat)) by reflexivity.
  split; [exact Hrun |].
  exact (FanOut_error_origin sample_registry [0]%nat [0]%nat vl failing_list_action
           0%nat 1%nat (ErrorNew "quota exceeded") Hrun).
Defined.

Lemma ProvidersParallel_error_origin_witness :
  ∃ n : string,
    n ∈ ["aws"; "azure"]
    ∧ ((sample_registry !! n = None
        ∧ ErrorNew "unknown vm provider: azure" = ErrorNew ("unknown vm provider: " ++ n)%string)
       ∨ ∃ (p : Provider.t nat) (s0 : nat) (e : error),
           sample_registry !! n = Some p
           ∧ (sample_action "none" p s0).1 = Some e
           ∧ ErrorNew "unknown vm provider: azure" = ErrorWrap e ("in provider: " ++ n)%string).
Proof.
  apply (ProvidersParallel_error_origin sample_registry [0; 1]%nat ["aws"; "azure"]
           (sample_action "none") 0%nat 1%nat).
  reflexivity.
Defined.
